(** * jsdsl: CircularBuffer and Option

    A shallow embedding of the [CircularBuffer<T>] class and of the
    [Option<T>] class (src/ts/option.ts), with the properties of their
    specification stated over the embedded code.

    Modelling conventions.
    - A TypeScript [number] that holds an index, a count or a capacity is a
      [Z].  The remainder operator [%] truncates towards zero and takes the
      sign of its dividend: it is [Z.rem], not [Z.modulo].  With a capacity
      of zero JavaScript computes [NaN]; the embedding is meant for the
      non-zero capacities, and every theorem that depends on index
      arithmetic assumes a positive one.  A [number] is an IEEE double:
      integers are exact up to [2 ^ 53] only, so the embedding is exact for
      capacities up to [2 ^ 52], and the theorems whose truth depends on it
      bound the capacity (see [max_capacity]).
    - The element type [T] is a type of defined values: an element is a
      [Some x], different from [undefined].  A TypeScript [T] that admits
      [undefined] is outside the embedding.
    - [Array<T | undefined>] is a [list (option T)]: [None] is [undefined]
      (a hole of a sparse array reads as [undefined] and is a [None] too),
      and the length of the list is the [length] of the array.  Reading
      outside the array gives [undefined]; writing past its end extends it.
    - A method that mutates [this] or throws is a function from the object
      before the call to an outcome and the object after it.  A [throw]
      leaves the object as it is at the point of the throw. *)

From stdpp Require Import base list.
From Stdlib Require Import ZArith Lia.
From Stdlib Require String.

Local Open Scope Z_scope.

(** ** JavaScript arrays *)

Module JsArray.

Section Ops.
Context {A : Type}.

(** [a[i]] for an array of [A | undefined]. *)
Definition get (a : list (option A)) (i : Z) : option A :=
  if i <? 0 then None
  else match a !! Z.to_nat i with
       | Some v => v
       | None => None
       end.

(** [a[i] = v].  An index at or past the end extends the array, the slots in
    between being holes.  A negative number is not an array index (the
    assignment creates an ordinary property): the elements are unchanged. *)
Definition set (a : list (option A)) (i : Z) (v : option A) : list (option A) :=
  if i <? 0 then a
  else if (Z.to_nat i <? length a)%nat then <[Z.to_nat i := v]> a
  else a ++ replicate (Z.to_nat i - length a)%nat None ++ [v].

End Ops.

(** The relative index of [Array.prototype.slice]: a negative argument counts
    from the end, and the result is clamped to [0, len]. *)
Definition clamp (len k : Z) : Z :=
  if k <? 0 then Z.max (len + k) 0 else Z.min k len.

(** [a.slice(start, end)]. *)
Definition slice {B : Type} (a : list B) (start fin : Z) : list B :=
  let len := Z.of_nat (length a) in
  let k := clamp len start in
  let e := clamp len fin in
  take (Z.to_nat (e - k)) (drop (Z.to_nat k) a).

(** [a.slice(start)]: the end defaults to the length. *)
Definition slice_from {B : Type} (a : list B) (start : Z) : list B :=
  slice a start (Z.of_nat (length a)).

End JsArray.

(** ** Outcomes of a method call *)

(** The two [Error]s the class throws, told apart by their message. *)
Inductive exn : Type :=
  | CapacityExceeded
      (* "Attempted to insert more elements into a CircularBuffer than the
         structure had space for! ..." *)
  | InsufficientElements
      (* "Attempted to remove/take more elements from a CircularBuffer than
         the structure contained! ..." *).

(** A method over an object of type [S] returning an [A]. *)
Definition M (S A : Type) : Type := S -> (exn + A) * S.

Definition ret {S A} (x : A) : M S A := fun s => (inr x, s).

Definition throw {S A} (e : exn) : M S A := fun s => (inl e, s).

Definition bind {S A B} (m : M S A) (k : A -> M S B) : M S B :=
  fun s =>
    match m s with
    | (inl e, s') => (inl e, s')
    | (inr x, s') => k x s'
    end.

Definition gets {S A} (f : S -> A) : M S A := fun s => (inr (f s), s).

Definition modify {S} (f : S -> S) : M S unit := fun s => (inr tt, f s).

Declare Scope method_scope.
Delimit Scope method_scope with method.
Notation "'let*' x ':=' m 'in' k" := (bind m (fun x => k))
  (at level 10, x name, m at level 100, k at level 200) : method_scope.

(** [n] calls of [m] in a row, with their results in order. *)
Fixpoint times {S A} (n : nat) (m : M S A) : M S (list A) :=
  match n with
  | O => ret []
  | Datatypes.S n' => bind m (fun x => bind (times n' m) (fun xs => ret (x :: xs)))
  end.

(** [for (const x of xs) body(x)] *)
Fixpoint for_of {S A} (xs : list A) (body : A -> M S unit) : M S unit :=
  match xs with
  | [] => ret tt
  | x :: xs' => bind (body x) (fun _ => for_of xs' body)
  end.

(** ** CircularBuffer *)

Section CircularBuffer.
Context {T : Type}.

Record CircularBuffer : Type := mkCircularBuffer {
  firstIndex : Z;
  elementCount : Z;
  capacity : Z;
  buffer : list (option T);
  allowOverwrite : bool;
  allowOverremove : bool
}.

Definition set_firstIndex (v : Z) (b : CircularBuffer) : CircularBuffer :=
  mkCircularBuffer v (elementCount b) (capacity b) (buffer b)
                   (allowOverwrite b) (allowOverremove b).

Definition set_elementCount (v : Z) (b : CircularBuffer) : CircularBuffer :=
  mkCircularBuffer (firstIndex b) v (capacity b) (buffer b)
                   (allowOverwrite b) (allowOverremove b).

Definition set_buffer (v : list (option T)) (b : CircularBuffer) : CircularBuffer :=
  mkCircularBuffer (firstIndex b) (elementCount b) (capacity b) v
                   (allowOverwrite b) (allowOverremove b).

(** [this.buffer[i] = v] *)
Definition store (i : Z) (v : option T) (b : CircularBuffer) : CircularBuffer :=
  set_buffer (JsArray.set (buffer b) i v) b.

(** [new CircularBuffer(capacity, allowOverwrite, allowOverremove)] *)
Definition new (cap : Z) (ow or : bool) : CircularBuffer :=
  mkCircularBuffer 0 0 cap [] ow or.

(** [((index % this.capacity) + this.capacity) % this.capacity], on
    integers.  The doubles of the source give the same number as long as the
    sum is exact, which a capacity of at most [2 ^ 52] ensures. *)
Definition wrapIndex (b : CircularBuffer) (index : Z) : Z :=
  Z.rem (Z.rem index (capacity b) + capacity b) (capacity b).

Definition getCapacity (b : CircularBuffer) : Z := capacity b.

Definition size (b : CircularBuffer) : Z := elementCount b.

Definition isEmpty (b : CircularBuffer) : bool := size b =? 0.

Definition isFull (b : CircularBuffer) : bool := getCapacity b <=? size b.

Definition freeSpace (b : CircularBuffer) : Z := getCapacity b - size b.

Definition getEndIndex (b : CircularBuffer) : Z :=
  wrapIndex b (firstIndex b + elementCount b).

Definition arePointersReversed (b : CircularBuffer) : bool :=
  wrapIndex b (getEndIndex b - 1) <? firstIndex b.

Definition checkInsertionLimitations (insertionSize : Z) : M CircularBuffer unit :=
  fun b =>
    if negb (allowOverwrite b) && (freeSpace b <? insertionSize)
    then throw CapacityExceeded b
    else ret tt b.

Definition checkRemovalLimitations (removalSize : Z) : M CircularBuffer unit :=
  fun b =>
    if negb (allowOverremove b) && (elementCount b <? removalSize)
    then throw InsufficientElements b
    else ret tt b.

(** [if (this.allowOverwrite) elements = elements.slice(-this.getCapacity())] *)
Definition truncate (b : CircularBuffer) (elements : list T) : list T :=
  if allowOverwrite b then JsArray.slice_from elements (- getCapacity b)
  else elements.

(** The body of the loop of [enqueue], which only assigns. *)
Definition enqueue_step (element : T) (b : CircularBuffer) : CircularBuffer :=
  let wasFull := isFull b in
  let newFirstIndex := wrapIndex b (firstIndex b - 1) in
  let b1 := store newFirstIndex (Some element) b in
  let b2 := set_firstIndex newFirstIndex b1 in
  if negb wasFull then set_elementCount (elementCount b2 + 1) b2 else b2.

Definition enqueue_body (element : T) : M CircularBuffer unit :=
  modify (enqueue_step element).

Definition enqueue (elements : list T) : M CircularBuffer Z :=
  (let* _ := checkInsertionLimitations (Z.of_nat (length elements)) in
   let* elements' := gets (fun b => truncate b elements) in
   let* _ := for_of elements' enqueue_body in
   gets size)%method.

(** The body of the loop of [push], which only assigns. *)
Definition push_step (element : T) (b : CircularBuffer) : CircularBuffer :=
  let wasFull := isFull b in
  let b1 := store (getEndIndex b) (Some element) b in
  if negb wasFull then set_elementCount (elementCount b1 + 1) b1
  else set_firstIndex (wrapIndex b1 (firstIndex b1 + 1)) b1.

Definition push_body (element : T) : M CircularBuffer unit :=
  modify (push_step element).

Definition push (elements : list T) : M CircularBuffer Z :=
  (let* _ := checkInsertionLimitations (Z.of_nat (length elements)) in
   let* elements' := gets (fun b => truncate b elements) in
   let* _ := for_of elements' push_body in
   gets size)%method.

(** [shift] returns a [T | undefined]: [None] is [undefined]. *)
Definition shift : M CircularBuffer (option T) :=
  fun b =>
    if isEmpty b && allowOverremove b then ret None b
    else
      (let* _ := checkRemovalLimitations 1 in
       let* result := gets (fun b => JsArray.get (buffer b) (firstIndex b)) in
       let* _ := modify (fun b => store (firstIndex b) None b) in
       let* _ := modify (fun b => set_firstIndex (wrapIndex b (firstIndex b + 1)) b) in
       let* _ := modify (fun b => set_elementCount (elementCount b - 1) b) in
       ret result)%method b.

Definition dequeue : M CircularBuffer (option T) :=
  fun b =>
    if isEmpty b && allowOverremove b then ret None b
    else
      (let* _ := checkRemovalLimitations 1 in
       let* resultIndex := gets (fun b => wrapIndex b (getEndIndex b - 1)) in
       let* result := gets (fun b => JsArray.get (buffer b) resultIndex) in
       let* _ := modify (store resultIndex None) in
       let* _ := modify (fun b => set_elementCount (elementCount b - 1) b) in
       ret result)%method b.

Definition pop : M CircularBuffer (option T) := dequeue.

Definition toArray (b : CircularBuffer) : list (option T) :=
  if arePointersReversed b then
    JsArray.slice_from (buffer b) (firstIndex b)
      ++ JsArray.slice (buffer b) 0 (getEndIndex b)
  else
    JsArray.slice (buffer b) (firstIndex b) (size b).

(** *** The logical view of a buffer *)

(** The bounds the specification puts on the count and on the first index. *)
Definition inv (b : CircularBuffer) : Prop :=
  0 <= elementCount b <= capacity b /\ 0 <= firstIndex b < capacity b.

(** What the storage holds at the [k]-th position after the first index. *)
Definition slot (b : CircularBuffer) (k : Z) : option T :=
  JsArray.get (buffer b) (wrapIndex b (firstIndex b + k)).

(** The logical sequence, front to back: the [elementCount] slots from
    [firstIndex] on, in increasing order modulo the capacity. *)
Definition contents (b : CircularBuffer) : list (option T) :=
  map (fun k => slot b (Z.of_nat k)) (seq 0 (Z.to_nat (elementCount b))).

(** The array never grows past the capacity, and every occupied slot lies
    inside it. *)
Definition allocated (b : CircularBuffer) : Prop :=
  Z.of_nat (length (buffer b)) <= capacity b /\
  forall k, 0 <= k < elementCount b ->
    wrapIndex b (firstIndex b + k) < Z.of_nat (length (buffer b)).

(** A well-formed buffer: a positive capacity and the two properties above. *)
Definition wf (b : CircularBuffer) : Prop :=
  0 < capacity b /\ inv b /\ allocated b.

(** [b'] has the capacity and the policy flags of [b]. *)
Definition same_config (b b' : CircularBuffer) : Prop :=
  capacity b' = capacity b /\
  allowOverwrite b' = allowOverwrite b /\
  allowOverremove b' = allowOverremove b.

(** The public methods. *)
Inductive op : Type :=
  | Enqueue (elements : list T)
  | Push (elements : list T)
  | Shift
  | Dequeue
  | Pop
  | GetCapacity
  | Size
  | IsEmpty
  | IsFull
  | FreeSpace
  | ToArray.

(** The object after a call, whether the call returned or threw.  The
    queries assign nothing. *)
Definition exec (o : op) (b : CircularBuffer) : CircularBuffer :=
  match o with
  | Enqueue elements => snd (enqueue elements b)
  | Push elements => snd (push elements b)
  | Shift => snd (shift b)
  | Dequeue => snd (dequeue b)
  | Pop => snd (pop b)
  | GetCapacity | Size | IsEmpty | IsFull | FreeSpace | ToArray => b
  end.

(** The states of a buffer constructed with a positive capacity. *)
Inductive reachable : CircularBuffer -> Prop :=
  | reachable_new cap ow or : 0 < cap -> reachable (new cap ow or)
  | reachable_exec o b : reachable b -> reachable (exec o b).

(** Every slot outside the occupied region reads [undefined]. *)
Definition cleared (b : CircularBuffer) : Prop :=
  forall k, elementCount b <= k < capacity b -> slot b k = None.

(** The buffer was only ever pushed to: its first index is still 0, or it
    is full. *)
Definition front_at_zero (b : CircularBuffer) : Prop :=
  firstIndex b = 0 \/ isFull b = true.

End CircularBuffer.

(** The last [n] elements of a list (all of it when it is shorter). *)
Definition last_n {A} (n : nat) (l : list A) : list A :=
  drop (length l - n) l.

Arguments CircularBuffer : clear implicits.
Arguments op : clear implicits.

(** ** Option *)

Module Opt.
Section Option.
Context {T : Type}.

(** [value?: T] is a [T | undefined]. *)
Record Option : Type := mkOption {
  hasInternalValue : bool;
  value : option T
}.

Definition some (v : T) : Option := mkOption true (Some v).

Definition none : Option := mkOption false None.

Definition isSome (o : Option) : bool := hasInternalValue o.

Definition isNone (o : Option) : bool := negb (hasInternalValue o).

Definition getValue (o : Option) : option T := value o.

Definition setValue (v : T) (o : Option) : Option := mkOption true (Some v).

Definition setValueIfNone (valueIfNone : T) (o : Option) : Option :=
  if isNone o then mkOption (hasInternalValue o) (Some valueIfNone) else o.

Definition setNone (o : Option) : Option := mkOption false None.

(** [new Error(message)] *)
Inductive error : Type := Error (message : String.string).

(** The methods below read [this.value as T]; the cast is unchecked, so what
    they hand on is the stored [T | undefined]. *)
Definition expect (errorMessage : String.string) (o : Option) : error + option T :=
  if isSome o then inr (value o) else inl (Error errorMessage).

Definition getValueOrDefault (defaultValue : T) (o : Option) : option T :=
  if isSome o then value o else Some defaultValue.

Definition getValueOrCalculatedDefault (callback : unit -> T) (o : Option) : option T :=
  if isSome o then value o else Some (callback tt).

(** [this.isSome() && this.value === value], for a strict equality
    [strict_equals] on [T]; [undefined] is not strictly equal to a [T]. *)
Definition contains (strict_equals : T -> T -> bool) (v : T) (o : Option) : bool :=
  isSome o &&
  match value o with
  | Some x => strict_equals x v
  | None => false
  end.

(** [Option.some(option.value as T)]: the stored value is passed on as it
    is. *)
Definition and (o option : Option) : Option :=
  if isSome o && isSome option then mkOption true (value option) else none.

Definition or (o option : Option) : Option :=
  if isSome o then mkOption true (value o)
  else if isSome option then mkOption true (value option)
  else none.

Definition xor (o option : Option) : Option :=
  if isSome o && isNone option then mkOption true (value o)
  else if isNone o && isSome option then mkOption true (value option)
  else none.

(** [callback(this.value as T)] for a callback typed on [T]: where the value
    is [undefined], which the type of the callback excludes, the result is
    left [undefined] (and is falsy). *)
Definition filter (callback : T -> bool) (o : Option) : Option :=
  if isNone o || negb (default false (callback <$> value o)) then none
  else mkOption true (value o).

(** An Option that has a value holds a [T]: the state every public
    constructor and method produces. *)
Definition typed (o : Option) : Prop :=
  hasInternalValue o = true -> is_Some (value o).

End Option.
Arguments Option : clear implicits.

Definition map {T U : Type} (callback : T -> U) (o : Option T) : Option U :=
  if isNone o then none else mkOption true (callback <$> value o).

End Opt.

(** ** Index normalisation as the specification words it *)

(** [((i mod capacity) + capacity) mod capacity], with the mathematical
    (floored) [mod]. *)
Definition spec_wrapIndex (cap i : Z) : Z := ((i mod cap) + cap) mod cap.

(** ** The capacities the embedding is exact for *)

(** The source computes on IEEE doubles, the embedding on [Z].  The two agree
    while every intermediate value is an integer of magnitude at most
    [2 ^ 53]: in [wrapIndex] the sum [(index % capacity) + capacity] stays
    below twice the capacity, so a capacity of at most [2 ^ 52] keeps index
    normalisation exact.  The storage is a JavaScript array, whose indices
    are the integers up to [2 ^ 32 - 2]: a capacity of at most [2 ^ 32 - 1]
    keeps every normalised index an array index.  The theorems that depend
    on the storage or on exact index arithmetic assume this bound. *)
Definition max_capacity : Z := 2 ^ 32 - 1.

(** * Properties *)

(** ** Index arithmetic *)

Lemma rem_rem_mod (c i : Z) : 0 < c -> Z.rem (Z.rem i c + c) c = i mod c.
Proof.
  intros Hc.
  pose proof (Z.rem_bound_abs i c ltac:(lia)) as Hb.
  pose proof (Z.quot_rem' i c) as Hq.
  rewrite Z.rem_mod_nonneg by lia.
  replace (Z.rem i c + c) with (i + (1 - i ÷ c) * c) by lia.
  apply Z.mod_add. lia.
Qed.

(** With a capacity of at most [2 ^ 52] the two remainders and the sum of
    [wrapIndex] stay within the integers that a double holds exactly. *)
Lemma wrapIndex_intermediates_exact (c i : Z) :
  0 < c -> c <= 2 ^ 52 ->
  - c < Z.rem i c < c /\
  0 < Z.rem i c + c < 2 ^ 53 /\
  0 <= Z.rem (Z.rem i c + c) c < c.
Proof.
  intros Hc Hmax.
  pose proof (Z.rem_bound_abs i c ltac:(lia)) as Hb.
  assert (2 ^ 53 = 2 * 2 ^ 52) as E by reflexivity.
  split; [lia|]. split; [lia|].
  rewrite rem_rem_mod by done. apply Z.mod_pos_bound. lia.
Qed.

Lemma mod_offset_inj (c f k1 k2 : Z) :
  0 < c -> 0 <= k1 < c -> 0 <= k2 < c ->
  (f + k1) mod c = (f + k2) mod c -> k1 = k2.
Proof.
  intros Hc H1 H2 He.
  pose proof (Z.div_mod (f + k1) c ltac:(lia)) as E1.
  pose proof (Z.div_mod (f + k2) c ltac:(lia)) as E2.
  rewrite He in E1.
  assert (k1 - k2 = c * ((f + k1) / c - (f + k2) / c)) as E by lia.
  set (q := (f + k1) / c - (f + k2) / c) in E.
  destruct (Z.eq_dec q 0) as [Hq|Hq]; [lia|].
  assert (c <= c * q \/ c * q <= - c) by nia. lia.
Qed.

(** ** Array reads and writes *)

Module JsArrayFacts.
Import JsArray.
Section Facts.
Context {A : Type}.
Implicit Types (a : list (option A)) (v : option A).

Lemma get_set_eq a i v : 0 <= i -> get (set a i v) i = v.
Proof.
  intros Hi. unfold get, set.
  destruct (Z.ltb_spec i 0) as [|_]; [lia|].
  destruct (Nat.ltb_spec (Z.to_nat i) (length a)) as [Hlt|Hge].
  - by rewrite list_lookup_insert_eq.
  - rewrite lookup_app_r by lia.
    rewrite lookup_app_r by (rewrite length_replicate; lia).
    rewrite length_replicate.
    by replace (Z.to_nat i - length a - (Z.to_nat i - length a))%nat with 0%nat by lia.
Qed.

Lemma get_set_ne a i j v : 0 <= i -> i <> j -> get (set a i v) j = get a j.
Proof.
  intros Hi Hne. unfold get, set.
  destruct (Z.ltb_spec i 0) as [|_]; [lia|].
  destruct (Z.ltb_spec j 0) as [|Hj]; [done|].
  assert (Z.to_nat i <> Z.to_nat j) as Hn by lia.
  destruct (Nat.ltb_spec (Z.to_nat i) (length a)) as [Hlt|Hge].
  - by rewrite list_lookup_insert_ne.
  - destruct (decide (Z.to_nat j < length a)%nat) as [Hj1|Hj1].
    + by rewrite lookup_app_l.
    + rewrite (lookup_ge_None_2 a) by lia.
      rewrite lookup_app_r by lia.
      destruct (decide (Z.to_nat j < Z.to_nat i)%nat) as [Hj2|Hj2].
      * rewrite lookup_app_l by (rewrite length_replicate; lia).
        by rewrite lookup_replicate_2 by lia.
      * rewrite lookup_app_r by (rewrite length_replicate; lia).
        rewrite length_replicate.
        by rewrite lookup_ge_None_2 by (simpl; lia).
Qed.

Lemma length_set a i v :
  0 <= i -> length (set a i v) = Nat.max (length a) (S (Z.to_nat i)).
Proof.
  intros Hi. unfold set.
  destruct (Z.ltb_spec i 0) as [|_]; [lia|].
  destruct (Nat.ltb_spec (Z.to_nat i) (length a)) as [Hlt|Hge].
  - rewrite length_insert. lia.
  - rewrite !length_app, length_replicate. simpl. lia.
Qed.

Lemma slice_nonneg {B} (l : list B) (s e : Z) :
  0 <= s -> 0 <= e ->
  slice l s e = take (Z.to_nat e - Z.to_nat s) (drop (Z.to_nat s) l).
Proof.
  intros Hs He. unfold slice, clamp.
  destruct (Z.ltb_spec s 0) as [|_]; [lia|].
  destruct (Z.ltb_spec e 0) as [|_]; [lia|].
  destruct (Z.le_gt_cases s (Z.of_nat (length l))) as [Hsl|Hsl].
  - rewrite (Z.min_l s) by lia.
    destruct (Z.le_gt_cases e (Z.of_nat (length l))) as [Hel|Hel].
    + rewrite (Z.min_l e) by lia. f_equal. lia.
    + rewrite (Z.min_r e) by lia.
      rewrite !take_ge; [done|rewrite length_drop; lia..].
  - rewrite (Z.min_r s) by lia.
    rewrite !drop_ge by lia. by rewrite !take_nil.
Qed.

Lemma slice_from_nonneg {B} (l : list B) (s : Z) :
  0 <= s -> slice_from l s = drop (Z.to_nat s) l.
Proof.
  intros Hs. unfold slice_from. rewrite slice_nonneg by lia.
  apply take_ge. rewrite length_drop. lia.
Qed.

Lemma map_seq_from {B} (g : nat -> B) s n :
  map g (seq s n) = map (fun j => g (s + j)%nat) (seq 0 n).
Proof.
  revert s. induction n as [|n IH]; intros s; [done|].
  rewrite <- cons_seq. simpl. rewrite Nat.add_0_r. f_equal.
  rewrite IH, <- seq_shift, map_map.
  apply map_ext. intros j. f_equal. lia.
Qed.

(** Reading a run of slots that lies inside the array. *)
Lemma get_range a s n :
  (s + n <= length a)%nat ->
  map (fun k => get a (Z.of_nat (s + k))) (seq 0 n) = take n (drop s a).
Proof.
  induction n as [|n IH]; intros Hn; [by rewrite take_0|].
  rewrite seq_S, map_app, IH by lia. simpl.
  destruct (lookup_lt_is_Some_2 a (s + n)%nat ltac:(lia)) as [v Hv].
  rewrite (take_S_r _ _ v) by (by rewrite lookup_drop).
  f_equal. unfold get.
  destruct (Z.ltb_spec (Z.of_nat (s + n)) 0) as [|_]; [lia|].
  by rewrite Nat2Z.id, Hv.
Qed.

End Facts.
End JsArrayFacts.

(** ** The buffer *)

Section CircularBufferFacts.
Context {T : Type}.
Implicit Types (b : CircularBuffer T) (x : T).

Local Ltac fields :=
  cbn [firstIndex elementCount capacity buffer allowOverwrite allowOverremove
       set_firstIndex set_elementCount set_buffer store] in *.

Lemma wrapIndex_mod b i : 0 < capacity b -> wrapIndex b i = i mod capacity b.
Proof. intros Hc. unfold wrapIndex. by apply rem_rem_mod. Qed.

Lemma wrapIndex_range b i : 0 < capacity b -> 0 <= wrapIndex b i < capacity b.
Proof. intros Hc. rewrite wrapIndex_mod by done. apply Z.mod_pos_bound. lia. Qed.

Lemma wrapIndex_small b i : 0 <= i < capacity b -> wrapIndex b i = i.
Proof. intros Hi. rewrite wrapIndex_mod by lia. apply Z.mod_small. lia. Qed.

Lemma wrapIndex_wrap_add b i d :
  0 < capacity b -> wrapIndex b (wrapIndex b i + d) = wrapIndex b (i + d).
Proof.
  intros Hc. rewrite !wrapIndex_mod by done. apply Zplus_mod_idemp_l.
Qed.

Lemma wrapIndex_add_cap b i :
  0 < capacity b -> wrapIndex b (i + capacity b) = wrapIndex b i.
Proof.
  intros Hc. rewrite !wrapIndex_mod by done.
  replace (i + capacity b) with (i + 1 * capacity b) by lia.
  apply Z.mod_add. lia.
Qed.

Lemma wrapIndex_inj b f k1 k2 :
  0 < capacity b -> 0 <= k1 < capacity b -> 0 <= k2 < capacity b ->
  wrapIndex b (f + k1) = wrapIndex b (f + k2) -> k1 = k2.
Proof.
  intros Hc H1 H2. rewrite !wrapIndex_mod by done.
  by apply mod_offset_inj.
Qed.

Lemma wrapIndex_capacity b b' i :
  capacity b' = capacity b -> wrapIndex b' i = wrapIndex b i.
Proof. unfold wrapIndex. by intros ->. Qed.

Lemma wrapIndex_ne b i j :
  0 < capacity b -> i <> j -> - capacity b < i - j < capacity b ->
  wrapIndex b i <> wrapIndex b j.
Proof.
  intros Hc Hne Hd He.
  destruct (Z.lt_ge_cases i j).
  - apply (wrapIndex_inj b i 0 (j - i)) in Hc as Hk; [lia..|].
    by replace (i + 0) with i by lia; replace (i + (j - i)) with j by lia.
  - apply (wrapIndex_inj b j (i - j) 0) in Hc as Hk; [lia..|].
    by replace (j + 0) with j by lia; replace (j + (i - j)) with i by lia.
Qed.

(** *** Sequences of positions *)

Lemma map_seq_ext {B} (g h : nat -> B) n :
  (forall k, (k < n)%nat -> g k = h k) -> map g (seq 0 n) = map h (seq 0 n).
Proof. intros E. apply map_ext_in. intros k [_ Hk]%in_seq. apply E. lia. Qed.

Lemma map_seq_last {B} (g : nat -> B) n :
  map g (seq 0 (S n)) = map g (seq 0 n) ++ [g n].
Proof. by rewrite seq_S, map_app. Qed.

Lemma map_seq_first {B} (g : nat -> B) n :
  map g (seq 0 (S n)) = g 0%nat :: map (fun k => g (S k)) (seq 0 n).
Proof. simpl. by rewrite <- seq_shift, map_map. Qed.

(** *** What one assignment to the storage does to the slots *)

(** After [buffer[wrap (first + d)] = v] and [firstIndex = wrap (first + e)],
    the [k]-th slot is the old [(e + k)]-th one, unless it is the slot
    written. *)
Lemma slot_after b b' d e v k :
  0 < capacity b ->
  capacity b' = capacity b ->
  buffer b' = JsArray.set (buffer b) (wrapIndex b (firstIndex b + d)) v ->
  firstIndex b' = wrapIndex b (firstIndex b + e) ->
  slot b' k =
    if decide (wrapIndex b (firstIndex b + d) = wrapIndex b (firstIndex b + (e + k)))
    then v else slot b (e + k).
Proof.
  intros Hc Hcap Hbuf Hfirst. unfold slot.
  rewrite Hbuf, Hfirst, (wrapIndex_capacity b b') by done.
  rewrite wrapIndex_wrap_add, <- Z.add_assoc by done.
  pose proof (wrapIndex_range b (firstIndex b + d) Hc).
  case_decide as E.
  - rewrite <- E. apply JsArrayFacts.get_set_eq. lia.
  - apply JsArrayFacts.get_set_ne; [lia|done].
Qed.

Lemma length_contents b : length (contents b) = Z.to_nat (elementCount b).
Proof. unfold contents. by rewrite length_map, length_seq. Qed.

(** *** The loop bodies *)

Lemma push_step_fields b x :
  capacity (push_step x b) = capacity b /\
  allowOverwrite (push_step x b) = allowOverwrite b /\
  allowOverremove (push_step x b) = allowOverremove b /\
  buffer (push_step x b) = JsArray.set (buffer b) (getEndIndex b) (Some x) /\
  elementCount (push_step x b) =
    (if isFull b then elementCount b else elementCount b + 1) /\
  firstIndex (push_step x b) =
    (if isFull b then wrapIndex b (firstIndex b + 1) else firstIndex b).
Proof. unfold push_step. by destruct (isFull b). Qed.

Lemma enqueue_step_fields b x :
  capacity (enqueue_step x b) = capacity b /\
  allowOverwrite (enqueue_step x b) = allowOverwrite b /\
  allowOverremove (enqueue_step x b) = allowOverremove b /\
  buffer (enqueue_step x b) =
    JsArray.set (buffer b) (wrapIndex b (firstIndex b - 1)) (Some x) /\
  elementCount (enqueue_step x b) =
    (if isFull b then elementCount b else elementCount b + 1) /\
  firstIndex (enqueue_step x b) = wrapIndex b (firstIndex b - 1).
Proof. unfold enqueue_step. by destruct (isFull b). Qed.

Lemma isFull_false b : isFull b = false <-> elementCount b < capacity b.
Proof. unfold isFull, getCapacity, size. apply Z.leb_gt. Qed.

Lemma isFull_true b : isFull b = true <-> capacity b <= elementCount b.
Proof. unfold isFull, getCapacity, size. apply Z.leb_le. Qed.

Lemma contents_push_step b x :
  0 < capacity b -> inv b ->
  contents (push_step x b) =
    if isFull b then drop 1 (contents b) ++ [Some x]
    else contents b ++ [Some x].
Proof.
  intros Hc [Hn Hf].
  destruct (push_step_fields b x) as (Hcap & _ & _ & Hbuf & Hcnt & Hfst).
  unfold getEndIndex in Hbuf. unfold contents. rewrite Hcnt.
  destruct (isFull b) eqn:Hfull.
  - apply isFull_true in Hfull.
    assert (elementCount b = capacity b) as En by lia.
    destruct (Z.to_nat (elementCount b)) as [|m] eqn:Em; [lia|].
    rewrite (map_seq_first (fun k => slot b _)), map_seq_last. simpl. f_equal.
    + apply map_seq_ext. intros k Hk.
      rewrite (slot_after b _ (elementCount b) 1 (Some x)) by done.
      rewrite decide_False; [f_equal; lia|].
      rewrite En, wrapIndex_add_cap by done.
      apply wrapIndex_ne; lia.
    + rewrite (slot_after b _ (elementCount b) 1 (Some x)) by done.
      rewrite decide_True; [done|]. do 2 f_equal; lia.
  - apply isFull_false in Hfull.
    replace (Z.to_nat (elementCount b + 1)) with (S (Z.to_nat (elementCount b))) by lia.
    rewrite map_seq_last. f_equal.
    + apply map_seq_ext. intros k Hk.
      rewrite (slot_after b _ (elementCount b) 0 (Some x));
        [|done..|by rewrite Hfst, Z.add_0_r, wrapIndex_small].
      rewrite decide_False; [f_equal; lia|].
      apply wrapIndex_ne; lia.
    + rewrite (slot_after b _ (elementCount b) 0 (Some x));
        [|done..|by rewrite Hfst, Z.add_0_r, wrapIndex_small].
      rewrite decide_True; [done|]. do 2 f_equal; lia.
Qed.

Lemma contents_enqueue_step b x :
  0 < capacity b -> inv b ->
  contents (enqueue_step x b) =
    if isFull b then Some x :: removelast (contents b)
    else Some x :: contents b.
Proof.
  intros Hc [Hn Hf].
  destruct (enqueue_step_fields b x) as (Hcap & _ & _ & Hbuf & Hcnt & Hfst).
  replace (firstIndex b - 1) with (firstIndex b + -1) in Hbuf, Hfst by lia.
  assert (forall k : nat, Z.of_nat k + 1 < capacity b ->
      slot (enqueue_step x b) (Z.of_nat (S k)) = slot b (Z.of_nat k)) as Hold.
  { intros k Hk. rewrite (slot_after b _ (-1) (-1) (Some x)) by done.
    rewrite decide_False; [f_equal; lia|].
    apply wrapIndex_ne; lia. }
  assert (slot (enqueue_step x b) (Z.of_nat 0) = Some x) as Hnew.
  { rewrite (slot_after b _ (-1) (-1) (Some x)) by done.
    rewrite decide_True; [done|]. do 2 f_equal; lia. }
  unfold contents. rewrite Hcnt.
  destruct (isFull b) eqn:Hfull.
  - apply isFull_true in Hfull.
    destruct (Z.to_nat (elementCount b)) as [|m] eqn:Em; [lia|].
    rewrite map_seq_first, (map_seq_last (fun k => slot b _)), removelast_last.
    rewrite Hnew. f_equal.
    apply map_seq_ext. intros k Hk. apply Hold. lia.
  - apply isFull_false in Hfull.
    replace (Z.to_nat (elementCount b + 1)) with (S (Z.to_nat (elementCount b))) by lia.
    rewrite map_seq_first, Hnew. f_equal.
    apply map_seq_ext. intros k Hk. apply Hold. lia.
Qed.

(** *** The methods, call by call *)

Lemma for_of_modify {A} (xs : list A) (f : A -> CircularBuffer T -> CircularBuffer T) b :
  for_of xs (fun y => modify (f y)) b = (inr tt, foldl (fun b y => f y b) b xs).
Proof.
  revert b. induction xs as [|y xs IH]; intros b; [done|].
  simpl. unfold bind, modify at 1. apply IH.
Qed.

Lemma push_eq elements b :
  push elements b =
    if negb (allowOverwrite b) && (freeSpace b <? Z.of_nat (length elements))
    then (inl CapacityExceeded, b)
    else let b' := foldl (fun b x => push_step x b) b (truncate b elements) in
         (inr (size b'), b').
Proof.
  unfold push, bind, checkInsertionLimitations, gets, push_body.
  destruct (negb _ && _); [done|]. simpl.
  by rewrite for_of_modify.
Qed.

Lemma enqueue_eq elements b :
  enqueue elements b =
    if negb (allowOverwrite b) && (freeSpace b <? Z.of_nat (length elements))
    then (inl CapacityExceeded, b)
    else let b' := foldl (fun b x => enqueue_step x b) b (truncate b elements) in
         (inr (size b'), b').
Proof.
  unfold enqueue, bind, checkInsertionLimitations, gets, enqueue_body.
  destruct (negb _ && _); [done|]. simpl.
  by rewrite for_of_modify.
Qed.

Lemma shift_empty b :
  elementCount b = 0 ->
  shift b = if allowOverremove b then (inr None, b) else (inl InsufficientElements, b).
Proof.
  intros E. unfold shift, isEmpty, size, bind, checkRemovalLimitations.
  rewrite E. by destruct (allowOverremove b).
Qed.

Lemma dequeue_empty b :
  elementCount b = 0 ->
  dequeue b = if allowOverremove b then (inr None, b) else (inl InsufficientElements, b).
Proof.
  intros E. unfold dequeue, isEmpty, size, bind, checkRemovalLimitations.
  rewrite E. by destruct (allowOverremove b).
Qed.

Lemma shift_nonempty b :
  0 < elementCount b ->
  shift b =
    (inr (JsArray.get (buffer b) (firstIndex b)),
     mkCircularBuffer (wrapIndex b (firstIndex b + 1)) (elementCount b - 1)
       (capacity b) (JsArray.set (buffer b) (firstIndex b) None)
       (allowOverwrite b) (allowOverremove b)).
Proof.
  intros Hn. unfold shift, isEmpty, size, bind, checkRemovalLimitations.
  destruct (Z.eqb_spec (elementCount b) 0) as [|_]; [lia|].
  destruct (Z.ltb_spec (elementCount b) 1) as [|_]; [lia|].
  by rewrite andb_false_r.
Qed.

Lemma dequeue_nonempty b :
  0 < elementCount b ->
  dequeue b =
    (inr (JsArray.get (buffer b) (wrapIndex b (getEndIndex b - 1))),
     mkCircularBuffer (firstIndex b) (elementCount b - 1) (capacity b)
       (JsArray.set (buffer b) (wrapIndex b (getEndIndex b - 1)) None)
       (allowOverwrite b) (allowOverremove b)).
Proof.
  intros Hn. unfold dequeue, isEmpty, size, bind, checkRemovalLimitations.
  destruct (Z.eqb_spec (elementCount b) 0) as [|_]; [lia|].
  destruct (Z.ltb_spec (elementCount b) 1) as [|_]; [lia|].
  by rewrite andb_false_r.
Qed.

Lemma last_index b :
  0 < capacity b ->
  wrapIndex b (getEndIndex b - 1) = wrapIndex b (firstIndex b + (elementCount b - 1)).
Proof.
  intros Hc. unfold getEndIndex.
  replace (wrapIndex b (firstIndex b + elementCount b) - 1)
    with (wrapIndex b (firstIndex b + elementCount b) + -1) by lia.
  rewrite wrapIndex_wrap_add by done. f_equal. lia.
Qed.

(** A removal from a buffer that holds something returns the front (or the
    back) of the logical sequence and leaves the rest. *)
Lemma contents_shift b :
  0 < capacity b -> inv b -> 0 < elementCount b ->
  fst (shift b) = inr (slot b 0) /\
  contents b = slot b 0 :: contents (snd (shift b)).
Proof.
  intros Hc [Hn Hf] Hpos. rewrite shift_nonempty by done. simpl.
  unfold slot at 1. rewrite Z.add_0_r, wrapIndex_small by done.
  split; [done|]. unfold contents at 1 2. fields.
  replace (Z.to_nat (elementCount b))
    with (S (Z.to_nat (elementCount b - 1))) by lia.
  rewrite map_seq_first. f_equal.
  apply map_seq_ext. intros k Hk. symmetry.
  rewrite (slot_after b _ 0 1 None);
    [|done..|by fields; rewrite Z.add_0_r, wrapIndex_small|done].
  rewrite decide_False; [f_equal; lia|].
  apply wrapIndex_ne; lia.
Qed.

Lemma contents_dequeue b :
  0 < capacity b -> inv b -> 0 < elementCount b ->
  fst (dequeue b) = inr (slot b (elementCount b - 1)) /\
  contents b = contents (snd (dequeue b)) ++ [slot b (elementCount b - 1)].
Proof.
  intros Hc [Hn Hf] Hpos. rewrite dequeue_nonempty by done. simpl.
  rewrite last_index by done.
  split; [done|]. unfold contents at 1 2. fields.
  replace (Z.to_nat (elementCount b))
    with (S (Z.to_nat (elementCount b - 1))) by lia.
  rewrite map_seq_last. f_equal.
  - apply map_seq_ext. intros k Hk. symmetry.
    rewrite (slot_after b _ (elementCount b - 1) 0 None);
      [|done..|by fields; rewrite Z.add_0_r, wrapIndex_small].
    rewrite decide_False; [f_equal; lia|].
    apply wrapIndex_ne; lia.
  - do 2 f_equal. lia.
Qed.

(** *** Well-formedness is kept *)

Lemma same_config_refl b : same_config b b.
Proof. by repeat split. Qed.

Lemma same_config_trans b1 b2 b3 :
  same_config b1 b2 -> same_config b2 b3 -> same_config b1 b3.
Proof. unfold same_config. intros (-> & -> & ->) (-> & -> & ->). done. Qed.

Lemma new_wf cap ow or : 0 < cap -> wf (@new T cap ow or).
Proof.
  intros Hc. repeat split; simpl; try lia.
Qed.

Lemma allocated_full b :
  wf b -> capacity b <= elementCount b ->
  Z.of_nat (length (buffer b)) = capacity b.
Proof.
  intros (Hc & [Hn Hf] & [Hlen Hocc]) Hfull.
  pose proof (Hocc (capacity b - 1 - firstIndex b) ltac:(lia)) as H.
  rewrite wrapIndex_small in H; lia.
Qed.

Lemma push_step_wf b x : wf b -> wf (push_step x b) /\ same_config b (push_step x b).
Proof.
  intros Hwf. pose proof Hwf as (Hc & [Hn Hf] & [Hlen Hocc]).
  destruct (push_step_fields b x) as (Hcap & How & Hor & Hbuf & Hcnt & Hfst).
  pose proof (wrapIndex_range b (firstIndex b + elementCount b) Hc) as Hi.
  pose proof (wrapIndex_range b (firstIndex b + 1) Hc) as Hi1.
  unfold getEndIndex in Hbuf.
  assert (length (buffer (push_step x b)) =
          Nat.max (length (buffer b))
                  (S (Z.to_nat (wrapIndex b (firstIndex b + elementCount b))))) as Hl.
  { rewrite Hbuf. apply JsArrayFacts.length_set. lia. }
  split; [|done].
  destruct (isFull b) eqn:Hfull.
  - apply isFull_true in Hfull.
    pose proof (allocated_full b Hwf Hfull) as Hcapl.
    repeat split; rewrite ?Hcap, ?Hcnt, ?Hfst, ?Hl; try lia.
    intros k Hk. rewrite (wrapIndex_capacity b) by done.
    pose proof (wrapIndex_range b (wrapIndex b (firstIndex b + 1) + k) Hc). lia.
  - apply isFull_false in Hfull.
    repeat split; rewrite ?Hcap, ?Hcnt, ?Hfst, ?Hl; try lia.
    intros k Hk. rewrite (wrapIndex_capacity b) by done.
    destruct (Z.eq_dec k (elementCount b)) as [->|Hne]; [lia|].
    pose proof (Hocc k ltac:(lia)). lia.
Qed.

Lemma enqueue_step_wf b x :
  wf b -> wf (enqueue_step x b) /\ same_config b (enqueue_step x b).
Proof.
  intros Hwf. pose proof Hwf as (Hc & [Hn Hf] & [Hlen Hocc]).
  destruct (enqueue_step_fields b x) as (Hcap & How & Hor & Hbuf & Hcnt & Hfst).
  pose proof (wrapIndex_range b (firstIndex b - 1) Hc) as Hi.
  assert (length (buffer (enqueue_step x b)) =
          Nat.max (length (buffer b))
                  (S (Z.to_nat (wrapIndex b (firstIndex b - 1))))) as Hl.
  { rewrite Hbuf. apply JsArrayFacts.length_set. lia. }
  split; [|done].
  destruct (isFull b) eqn:Hfull.
  - apply isFull_true in Hfull.
    pose proof (allocated_full b Hwf Hfull) as Hcapl.
    repeat split; rewrite ?Hcap, ?Hcnt, ?Hfst, ?Hl; try lia.
    intros k Hk. rewrite (wrapIndex_capacity b) by done.
    pose proof (wrapIndex_range b (wrapIndex b (firstIndex b - 1) + k) Hc). lia.
  - apply isFull_false in Hfull.
    repeat split; rewrite ?Hcap, ?Hcnt, ?Hfst, ?Hl; try lia.
    intros k Hk. rewrite (wrapIndex_capacity b), wrapIndex_wrap_add by done.
    destruct (Z.eq_dec k 0) as [->|Hne].
    + rewrite Z.add_0_r. lia.
    + pose proof (Hocc (k - 1) ltac:(lia)) as H.
      replace (firstIndex b - 1 + k) with (firstIndex b + (k - 1)) by lia. lia.
Qed.

Lemma foldl_wf {A} (f : A -> CircularBuffer T -> CircularBuffer T) xs b :
  (forall b y, wf b -> wf (f y b) /\ same_config b (f y b)) ->
  wf b ->
  wf (foldl (fun b y => f y b) b xs) /\ same_config b (foldl (fun b y => f y b) b xs).
Proof.
  intros Hstep. revert b. induction xs as [|y xs IH]; intros b Hwf; simpl.
  - split; [done|apply same_config_refl].
  - destruct (Hstep b y Hwf) as [Hwf' Hcfg'].
    destruct (IH _ Hwf') as [Hwf'' Hcfg''].
    split; [done|]. by eapply same_config_trans.
Qed.

Lemma push_wf elements b :
  wf b -> wf (snd (push elements b)) /\ same_config b (snd (push elements b)).
Proof.
  intros Hwf. rewrite push_eq.
  destruct (negb _ && _); simpl.
  - split; [done|apply same_config_refl].
  - apply (foldl_wf (fun x b => push_step x b)); [|done].
    intros. by apply push_step_wf.
Qed.

Lemma enqueue_wf elements b :
  wf b -> wf (snd (enqueue elements b)) /\ same_config b (snd (enqueue elements b)).
Proof.
  intros Hwf. rewrite enqueue_eq.
  destruct (negb _ && _); simpl.
  - split; [done|apply same_config_refl].
  - apply (foldl_wf (fun x b => enqueue_step x b)); [|done].
    intros. by apply enqueue_step_wf.
Qed.

Lemma shift_wf b : wf b -> wf (snd (shift b)) /\ same_config b (snd (shift b)).
Proof.
  intros Hwf. pose proof Hwf as (Hc & [Hn Hf] & [Hlen Hocc]).
  destruct (Z.eq_dec (elementCount b) 0) as [E|E].
  - rewrite shift_empty by done.
    destruct (allowOverremove b); (split; [done|apply same_config_refl]).
  - rewrite shift_nonempty by lia. simpl. split; [|done].
    pose proof (Hocc 0 ltac:(lia)) as H0.
    rewrite Z.add_0_r, wrapIndex_small in H0 by done.
    pose proof (wrapIndex_range b (firstIndex b + 1) Hc) as Hi1.
    unfold wf, inv, allocated. fields.
    rewrite JsArrayFacts.length_set by lia.
    repeat split; try lia.
    intros k Hk. rewrite (wrapIndex_capacity b) by done.
    rewrite wrapIndex_wrap_add, <- Z.add_assoc by done.
    pose proof (Hocc (1 + k) ltac:(lia)). lia.
Qed.

Lemma dequeue_wf b : wf b -> wf (snd (dequeue b)) /\ same_config b (snd (dequeue b)).
Proof.
  intros Hwf. pose proof Hwf as (Hc & [Hn Hf] & [Hlen Hocc]).
  destruct (Z.eq_dec (elementCount b) 0) as [E|E].
  - rewrite dequeue_empty by done.
    destruct (allowOverremove b); (split; [done|apply same_config_refl]).
  - rewrite dequeue_nonempty by lia. simpl. split; [|done].
    rewrite last_index by done.
    pose proof (Hocc (elementCount b - 1) ltac:(lia)) as H0.
    pose proof (wrapIndex_range b (firstIndex b + (elementCount b - 1)) Hc) as Hi1.
    unfold wf, inv, allocated. fields.
    rewrite JsArrayFacts.length_set by lia.
    repeat split; try lia.
    intros k Hk. rewrite (wrapIndex_capacity b) by done.
    pose proof (Hocc k ltac:(lia)). lia.
Qed.

Lemma exec_wf o b : wf b -> wf (exec o b) /\ same_config b (exec o b).
Proof.
  intros Hwf. destruct o; simpl;
    auto using push_wf, enqueue_wf, shift_wf, dequeue_wf, same_config_refl.
Qed.

Lemma reachable_wf b : reachable b -> wf b.
Proof.
  induction 1 as [cap ow or Hc|o b _ IH].
  - by apply new_wf.
  - by apply exec_wf.
Qed.

(** *** The logical sequence and [toArray] in terms of the storage *)

Lemma contents_straight b :
  wf b -> firstIndex b + elementCount b <= capacity b ->
  contents b =
    take (Z.to_nat (elementCount b)) (drop (Z.to_nat (firstIndex b)) (buffer b)).
Proof.
  intros (Hc & [Hn Hf] & [Hlen Hocc]) Hfit. unfold contents.
  destruct (Z.eq_dec (elementCount b) 0) as [->|Hne]; [by rewrite take_0|].
  pose proof (Hocc (elementCount b - 1) ltac:(lia)) as Hlast.
  rewrite wrapIndex_small in Hlast by lia.
  rewrite <- JsArrayFacts.get_range by lia.
  apply map_seq_ext. intros k Hk. unfold slot.
  rewrite wrapIndex_small by lia. f_equal. lia.
Qed.

Lemma contents_wrapped b :
  wf b -> capacity b < firstIndex b + elementCount b ->
  contents b =
    drop (Z.to_nat (firstIndex b)) (buffer b)
      ++ take (Z.to_nat (firstIndex b + elementCount b - capacity b)) (buffer b).
Proof.
  intros (Hc & [Hn Hf] & [Hlen Hocc]) Hwrap. unfold contents.
  pose proof (Hocc (capacity b - 1 - firstIndex b) ltac:(lia)) as Hlast.
  rewrite wrapIndex_small in Hlast by lia.
  replace (Z.to_nat (elementCount b))
    with (Z.to_nat (capacity b - firstIndex b)
          + Z.to_nat (firstIndex b + elementCount b - capacity b))%nat by lia.
  rewrite seq_app, map_app. f_equal.
  - rewrite <- (take_ge (drop _ _) (Z.to_nat (capacity b - firstIndex b)))
      by (rewrite length_drop; lia).
    rewrite <- JsArrayFacts.get_range by lia.
    apply map_seq_ext. intros k Hk. unfold slot.
    rewrite wrapIndex_small by lia. f_equal. lia.
  - rewrite JsArrayFacts.map_seq_from.
    pose proof (JsArrayFacts.get_range (buffer b) 0
      (Z.to_nat (firstIndex b + elementCount b - capacity b)) ltac:(lia)) as Hr.
    rewrite drop_0 in Hr. rewrite <- Hr.
    apply map_seq_ext. intros k Hk. cbv beta. unfold slot.
    f_equal. transitivity (wrapIndex b (Z.of_nat k + capacity b)); [f_equal; lia|].
    rewrite wrapIndex_add_cap, wrapIndex_small by lia. lia.
Qed.

(** [toArray] is right on a buffer whose first index is 0 and on a buffer
    whose occupied region wraps. *)
Lemma toArray_contents b :
  wf b ->
  firstIndex b = 0 \/ capacity b < firstIndex b + elementCount b ->
  toArray b = contents b.
Proof.
  intros Hwf Hcase. pose proof Hwf as (Hc & [Hn Hf] & [Hlen Hocc]).
  unfold toArray, arePointersReversed, size.
  destruct Hcase as [H0|Hwrap].
  - pose proof (wrapIndex_range b (getEndIndex b - 1) Hc).
    destruct (Z.ltb_spec (wrapIndex b (getEndIndex b - 1)) (firstIndex b)) as [|_]; [lia|].
    rewrite contents_straight by (done || lia).
    rewrite JsArrayFacts.slice_nonneg by lia.
    f_equal. lia.
  - assert (getEndIndex b = firstIndex b + elementCount b - capacity b) as He.
    { unfold getEndIndex.
      rewrite <- (wrapIndex_small b (firstIndex b + elementCount b - capacity b)) by lia.
      rewrite <- (wrapIndex_add_cap b (firstIndex b + elementCount b - capacity b)) by done.
      f_equal. lia. }
    rewrite He, (wrapIndex_small b (_ - 1)) by lia.
    destruct (Z.ltb_spec (firstIndex b + elementCount b - capacity b - 1) (firstIndex b))
      as [_|]; [|lia].
    rewrite contents_wrapped by done.
    rewrite JsArrayFacts.slice_from_nonneg, JsArrayFacts.slice_nonneg by lia.
    f_equal. rewrite drop_0. f_equal. lia.
Qed.

Lemma toArray_full b :
  wf b -> isFull b = true -> toArray b = contents b.
Proof.
  intros Hwf Hfull. apply isFull_true in Hfull.
  apply toArray_contents; [done|].
  destruct Hwf as (Hc & [Hn Hf] & _). lia.
Qed.

(** *** Insertions that fit, removals down to empty *)

Lemma truncate_strict b elements :
  allowOverwrite b = false -> truncate b elements = elements.
Proof. unfold truncate. by intros ->. Qed.

Lemma truncate_single b x : 0 < capacity b -> truncate b [x] = [x].
Proof.
  intros Hc. unfold truncate. destruct (allowOverwrite b); [|done].
  unfold JsArray.slice_from, JsArray.slice, JsArray.clamp, getCapacity. simpl.
  destruct (Z.ltb_spec (- capacity b) 0) as [_|]; [|lia].
  by rewrite Z.max_r by lia.
Qed.

Lemma push_steps b elements :
  wf b -> elementCount b + Z.of_nat (length elements) <= capacity b ->
  let b' := foldl (fun b x => push_step x b) b elements in
  wf b' /\ same_config b b' /\
  elementCount b' = elementCount b + Z.of_nat (length elements) /\
  contents b' = contents b ++ map Some elements.
Proof.
  revert b. induction elements as [|x xs IH]; intros b Hwf Hfit; simpl in *.
  - rewrite app_nil_r. repeat split; try done; try apply Hwf. lia.
  - destruct (push_step_wf b x Hwf) as [Hwf' Hcfg'].
    destruct (push_step_fields b x) as (Hcap & _ & _ & _ & Hcnt & _).
    pose proof (contents_push_step b x) as Hcont.
    assert (isFull b = false) as Hnf by (apply isFull_false; lia).
    rewrite Hnf in Hcnt, Hcont.
    destruct (IH (push_step x b) Hwf' ltac:(lia)) as (Hwf'' & Hcfg'' & Hcnt'' & Hcont'').
    split; [done|]. split; [by eapply same_config_trans|].
    split; [lia|].
    rewrite Hcont'', Hcont, <- app_assoc by apply Hwf. done.
Qed.

Lemma enqueue_steps b elements :
  wf b -> elementCount b + Z.of_nat (length elements) <= capacity b ->
  let b' := foldl (fun b x => enqueue_step x b) b elements in
  wf b' /\ same_config b b' /\
  elementCount b' = elementCount b + Z.of_nat (length elements) /\
  contents b' = rev (map Some elements) ++ contents b.
Proof.
  revert b. induction elements as [|x xs IH]; intros b Hwf Hfit; simpl in *.
  - repeat split; try done; try apply Hwf. lia.
  - destruct (enqueue_step_wf b x Hwf) as [Hwf' Hcfg'].
    destruct (enqueue_step_fields b x) as (Hcap & _ & _ & _ & Hcnt & _).
    pose proof (contents_enqueue_step b x) as Hcont.
    assert (isFull b = false) as Hnf by (apply isFull_false; lia).
    rewrite Hnf in Hcnt, Hcont.
    destruct (IH (enqueue_step x b) Hwf' ltac:(lia)) as (Hwf'' & Hcfg'' & Hcnt'' & Hcont'').
    split; [done|]. split; [by eapply same_config_trans|].
    split; [lia|].
    rewrite Hcont'', Hcont, <- app_assoc by apply Hwf. done.
Qed.

Lemma push_fits b elements :
  wf b -> Z.of_nat (length elements) <= freeSpace b ->
  allowOverwrite b = false ->
  exists b', push elements b = (inr (elementCount b + Z.of_nat (length elements)), b') /\
    wf b' /\ same_config b b' /\
    elementCount b' = elementCount b + Z.of_nat (length elements) /\
    contents b' = contents b ++ map Some elements.
Proof.
  intros Hwf Hfit How. unfold freeSpace, getCapacity, size in Hfit.
  rewrite push_eq. unfold freeSpace, getCapacity, size.
  destruct (Z.ltb_spec (capacity b - elementCount b) (Z.of_nat (length elements)));
    [lia|].
  rewrite andb_false_r, truncate_strict by done. cbv zeta.
  destruct (push_steps b elements Hwf ltac:(lia)) as (Hwf' & Hcfg & Hcnt & Hcont).
  eexists. split; [by rewrite Hcnt|done].
Qed.

Lemma enqueue_fits b elements :
  wf b -> Z.of_nat (length elements) <= freeSpace b ->
  allowOverwrite b = false ->
  exists b', enqueue elements b = (inr (elementCount b + Z.of_nat (length elements)), b') /\
    wf b' /\ same_config b b' /\
    elementCount b' = elementCount b + Z.of_nat (length elements) /\
    contents b' = rev (map Some elements) ++ contents b.
Proof.
  intros Hwf Hfit How. unfold freeSpace, getCapacity, size in Hfit.
  rewrite enqueue_eq. unfold freeSpace, getCapacity, size.
  destruct (Z.ltb_spec (capacity b - elementCount b) (Z.of_nat (length elements)));
    [lia|].
  rewrite andb_false_r, truncate_strict by done. cbv zeta.
  destruct (enqueue_steps b elements Hwf ltac:(lia)) as (Hwf' & Hcfg & Hcnt & Hcont).
  eexists. split; [by rewrite Hcnt|done].
Qed.

(** As many [shift]s as the buffer holds elements return the logical
    sequence front to back and leave the buffer empty. *)
Lemma shift_all n b :
  wf b -> n = Z.to_nat (elementCount b) ->
  exists b', times n shift b = (inr (contents b), b') /\
    wf b' /\ same_config b b' /\ elementCount b' = 0.
Proof.
  revert b. induction n as [|n IH]; intros b Hwf Hn.
  - exists b. pose proof Hwf as (_ & [Hcnt _] & _).
    unfold contents. rewrite <- Hn. simpl.
    repeat split; try apply Hwf. lia.
  - pose proof Hwf as (Hc & Hinv & _).
    destruct (contents_shift b Hc Hinv ltac:(lia)) as [Hres Hcont].
    destruct (shift_wf b Hwf) as [Hwf' Hcfg'].
    assert (elementCount (snd (shift b)) = elementCount b - 1) as Hcnt.
    { by rewrite shift_nonempty by lia. }
    destruct (IH (snd (shift b)) Hwf' ltac:(lia)) as (b' & Hrun & Hwf'' & Hcfg'' & Hz).
    exists b'. split; [|split; [done|split; [by eapply same_config_trans|done]]].
    simpl. unfold bind at 1.
    destruct (shift b) as [r b1]. simpl in *. subst r.
    unfold bind at 1. rewrite Hrun. unfold ret. by rewrite Hcont.
Qed.

(** As many [dequeue]s as the buffer holds elements return the logical
    sequence back to front and leave the buffer empty. *)
Lemma dequeue_all n b :
  wf b -> n = Z.to_nat (elementCount b) ->
  exists b', times n dequeue b = (inr (rev (contents b)), b') /\
    wf b' /\ same_config b b' /\ elementCount b' = 0.
Proof.
  revert b. induction n as [|n IH]; intros b Hwf Hn.
  - exists b. pose proof Hwf as (_ & [Hcnt _] & _).
    unfold contents. rewrite <- Hn. simpl.
    repeat split; try apply Hwf. lia.
  - pose proof Hwf as (Hc & Hinv & _).
    destruct (contents_dequeue b Hc Hinv ltac:(lia)) as [Hres Hcont].
    destruct (dequeue_wf b Hwf) as [Hwf' Hcfg'].
    assert (elementCount (snd (dequeue b)) = elementCount b - 1) as Hcnt.
    { by rewrite dequeue_nonempty by lia. }
    destruct (IH (snd (dequeue b)) Hwf' ltac:(lia)) as (b' & Hrun & Hwf'' & Hcfg'' & Hz).
    exists b'. split; [|split; [done|split; [by eapply same_config_trans|done]]].
    simpl. unfold bind at 1.
    destruct (dequeue b) as [r b1]. simpl in *. subst r.
    unfold bind at 1. rewrite Hrun. unfold ret.
    by rewrite Hcont, rev_app_distr.
Qed.

Lemma push_each b elements :
  wf b -> elementCount b + Z.of_nat (length elements) <= capacity b ->
  allowOverwrite b = false ->
  for_of elements (fun e => bind (push [e]) (fun _ => ret tt)) b =
    (inr tt, foldl (fun b x => push_step x b) b elements).
Proof.
  revert b. induction elements as [|x xs IH]; intros b Hwf Hfit How; [done|].
  simpl in *. unfold bind at 1 2. rewrite push_eq.
  unfold freeSpace, getCapacity, size.
  match goal with
  | |- context [?a <? ?c] => destruct (Z.ltb_spec a c); [simpl in *; lia|]
  end.
  rewrite andb_false_r, truncate_strict by done. simpl.
  destruct (push_step_wf b x Hwf) as [Hwf' (_ & How' & _)].
  destruct (push_step_fields b x) as (Hcap & _ & _ & _ & Hcnt & _).
  assert (isFull b = false) as Hnf by (apply isFull_false; lia).
  rewrite Hnf in Hcnt.
  apply IH; [done|lia|congruence].
Qed.

Lemma enqueue_each b elements :
  wf b -> elementCount b + Z.of_nat (length elements) <= capacity b ->
  allowOverwrite b = false ->
  for_of elements (fun e => bind (enqueue [e]) (fun _ => ret tt)) b =
    (inr tt, foldl (fun b x => enqueue_step x b) b elements).
Proof.
  revert b. induction elements as [|x xs IH]; intros b Hwf Hfit How; [done|].
  simpl in *. unfold bind at 1 2. rewrite enqueue_eq.
  unfold freeSpace, getCapacity, size.
  match goal with
  | |- context [?a <? ?c] => destruct (Z.ltb_spec a c); [simpl in *; lia|]
  end.
  rewrite andb_false_r, truncate_strict by done. simpl.
  destruct (enqueue_step_wf b x Hwf) as [Hwf' (_ & How' & _)].
  destruct (enqueue_step_fields b x) as (Hcap & _ & _ & _ & Hcnt & _).
  assert (isFull b = false) as Hnf by (apply isFull_false; lia).
  rewrite Hnf in Hcnt.
  apply IH; [done|lia|congruence].
Qed.

End CircularBufferFacts.

(** * The properties of the specification *)

(** ** Index normalisation *)

(** C9.  With a positive capacity, [wrapIndex i] is
    [((i mod capacity) + capacity) mod capacity] for an integer [i] of either
    sign (whether [mod] is read as the floored modulo or as the truncating
    remainder of the code), and it lies in [[0, capacity)].
    Stated for capacities up to [2 ^ 52], where the sum inside
    [wrapIndex] is exact in the doubles of the source. *)
Theorem wrapIndex_normalises {T} (b : CircularBuffer T) (i : Z) :
  0 < capacity b -> capacity b <= 2 ^ 52 ->
  wrapIndex b i = spec_wrapIndex (capacity b) i /\
  wrapIndex b i = Z.rem (Z.rem i (capacity b) + capacity b) (capacity b) /\
  0 <= wrapIndex b i < capacity b.
Proof.
  intros Hc _. split; [|split; [done|by apply wrapIndex_range]].
  rewrite wrapIndex_mod by done. unfold spec_wrapIndex.
  rewrite Zplus_mod_idemp_l.
  replace (i + capacity b) with (i + 1 * capacity b) by lia.
  symmetry. apply Z.mod_add. lia.
Qed.

Lemma wrapIndex_normalises_witness :
  0 < capacity (new (T:=Z) 4 false false) /\
  capacity (new (T:=Z) 4 false false) <= 2 ^ 52 /\
  wrapIndex (new (T:=Z) 4 false false) (-5) = spec_wrapIndex 4 (-5) /\
  wrapIndex (new (T:=Z) 4 false false) (-5) = 3.
Proof.
  assert (0 < capacity (new (T:=Z) 4 false false)) as Hc by (simpl; lia).
  assert (capacity (new (T:=Z) 4 false false) <= 2 ^ 52) as Hmax
    by (vm_compute; discriminate).
  destruct (wrapIndex_normalises (new (T:=Z) 4 false false) (-5) Hc Hmax)
    as (Hspec & _ & _).
  exact (conj Hc (conj Hmax (conj Hspec eq_refl))).
Defined.

(** ** Sizes *)

(** C8.  In every state, [size() + freeSpace()] is [getCapacity()]. *)
Theorem size_plus_freeSpace {T} (b : CircularBuffer T) :
  size b + freeSpace b = getCapacity b.
Proof. unfold freeSpace. lia. Qed.

(** C7.  In every state of a buffer constructed with a positive capacity the
    count is between 0 and the capacity and the first index is between 0
    and the capacity (excluded), and every public method keeps it so, and
    keeps the capacity. *)
Theorem invariants_preserved {T} (b : CircularBuffer T) (o : op T) :
  reachable b ->
  inv b /\ inv (exec o b) /\ getCapacity (exec o b) = getCapacity b.
Proof.
  intros Hwf%reachable_wf.
  destruct (exec_wf o b Hwf) as [(_ & Hinv' & _) (Hcap & _)].
  split; [apply Hwf|done].
Qed.

Lemma invariants_preserved_witness :
  reachable (new (T:=Z) 3 false false) /\
  (inv (new (T:=Z) 3 false false) /\
   inv (exec (Push [1; 2]) (new (T:=Z) 3 false false)) /\
   getCapacity (exec (Push [1; 2]) (new (T:=Z) 3 false false)) = 3).
Proof.
  assert (reachable (new (T:=Z) 3 false false)) as Hr
    by (apply reachable_new; lia).
  split; [exact Hr|].
  exact (invariants_preserved (new (T:=Z) 3 false false) (Push [1; 2]) Hr).
Defined.

(** ** Failing calls *)

(** C3.  With [allowOverwrite = false], [push] and [enqueue] of [n] elements
    throw exactly when [n > freeSpace()]; what they throw then is the
    capacity error, and the buffer is left as it was: same count, same first
    index, same storage. *)
Theorem insertion_overflow {T} (b : CircularBuffer T) (elements : list T) :
  allowOverwrite b = false ->
  ((exists e, fst (push elements b) = inl e)
     <-> freeSpace b < Z.of_nat (length elements)) /\
  ((exists e, fst (enqueue elements b) = inl e)
     <-> freeSpace b < Z.of_nat (length elements)) /\
  (freeSpace b < Z.of_nat (length elements) ->
     push elements b = (inl CapacityExceeded, b) /\
     enqueue elements b = (inl CapacityExceeded, b)).
Proof.
  intros How. rewrite push_eq, enqueue_eq, How. simpl negb.
  destruct (Z.ltb_spec (freeSpace b) (Z.of_nat (length elements))) as [Hlt|Hge];
    simpl.
  - repeat split; eauto.
  - repeat split; try lia; by intros [e He].
Qed.

Lemma insertion_overflow_witness :
  allowOverwrite (new (T:=Z) 2 false false) = false /\
  push [1; 2; 3] (new (T:=Z) 2 false false)
    = (inl CapacityExceeded, new (T:=Z) 2 false false).
Proof.
  split; [reflexivity|].
  destruct (insertion_overflow (new (T:=Z) 2 false false) [1; 2; 3] eq_refl)
    as (_ & _ & Hthrow).
  apply Hthrow. vm_compute. reflexivity.
Defined.

(** C4.  On an empty buffer [shift], [dequeue] and [pop] return [undefined]
    when [allowOverremove] is set and throw the removal error when it is not;
    either way the buffer is left as it was, so its size stays 0. *)
Theorem removal_from_empty {T} (b : CircularBuffer T) :
  isEmpty b = true ->
  let outcome :=
    (if allowOverremove b then inr None else inl InsufficientElements, b) in
  shift b = outcome /\ dequeue b = outcome /\ pop b = outcome /\
  size (snd outcome) = 0.
Proof.
  intros He. apply Z.eqb_eq in He. unfold size in He.
  unfold pop. rewrite shift_empty, dequeue_empty by done.
  by destruct (allowOverremove b).
Qed.

Lemma removal_from_empty_witness :
  isEmpty (new (T:=Z) 2 false true) = true /\
  shift (new (T:=Z) 2 false true) = (inr None, new (T:=Z) 2 false true).
Proof.
  split; [reflexivity|].
  apply (removal_from_empty (new (T:=Z) 2 false true) eq_refl).
Defined.

(** ** Overwriting *)

(** C2.  On a full buffer with [allowOverwrite = true], inserting one element
    evicts the element at the end opposite to the insertion end (the oldest
    one in the direction of insertion) and the size stays at the capacity:
    [push] drops the front element and appends the new one, [enqueue] drops
    the back element and puts the new one in front.  With capacity 4,
    [push(1,2,3,4)] then [push(5)] gives [toArray() = [2,3,4,5]]. *)
Theorem overwrite_evicts_opposite_end {T} (b : CircularBuffer T) (x : T) :
  reachable b -> allowOverwrite b = true -> isFull b = true ->
  toArray b = contents b /\
  (fst (push [x] b) = inr (getCapacity b) /\
   size (snd (push [x] b)) = getCapacity b /\
   toArray (snd (push [x] b)) = drop 1 (toArray b) ++ [Some x]) /\
  (fst (enqueue [x] b) = inr (getCapacity b) /\
   size (snd (enqueue [x] b)) = getCapacity b /\
   toArray (snd (enqueue [x] b)) = Some x :: removelast (toArray b)) /\
  toArray (snd (push [5] (snd (push [1; 2; 3; 4] (new 4 true false)))))
    = [Some 2; Some 3; Some 4; Some 5].
Proof.
  intros Hwf%reachable_wf How Hfull.
  pose proof Hwf as (Hc & [Hn Hf] & _).
  pose proof Hfull as Hcnt%isFull_true.
  assert (elementCount b = capacity b) as En by lia.
  rewrite (toArray_full b) by done.
  split; [done|].
  destruct (push_step_wf b x Hwf) as [Hwfp _].
  destruct (push_step_fields b x) as (Hcapp & _ & _ & _ & Hcp & _).
  destruct (enqueue_step_wf b x Hwf) as [Hwfe _].
  destruct (enqueue_step_fields b x) as (Hcape & _ & _ & _ & Hce & _).
  pose proof (contents_push_step b x Hc (conj Hn Hf)) as Hp.
  pose proof (contents_enqueue_step b x Hc (conj Hn Hf)) as He.
  rewrite Hfull in Hcp, Hce, Hp, He.
  assert (isFull (push_step x b) = true) as Hfp
    by (apply isFull_true; lia).
  assert (isFull (enqueue_step x b) = true) as Hfe
    by (apply isFull_true; lia).
  rewrite push_eq, enqueue_eq, How, truncate_single by done.
  cbn [negb andb foldl fst snd]. unfold size, getCapacity.
  rewrite !toArray_full, Hcp, Hce, Hp, He, En by done.
  repeat split.
Qed.

Lemma overwrite_evicts_opposite_end_witness :
  let b := exec (Push [1; 2; 3; 4]) (new (T:=Z) 4 true false) in
  reachable b /\ allowOverwrite b = true /\ isFull b = true /\
  toArray (snd (push [5] b)) = drop 1 (toArray b) ++ [Some 5] /\
  toArray (snd (enqueue [5] b)) = Some 5 :: removelast (toArray b).
Proof.
  intros b.
  assert (reachable b) as Hr
    by (apply reachable_exec, reachable_new; lia).
  destruct (overwrite_evicts_opposite_end b 5 Hr eq_refl eq_refl)
    as (_ & (_ & _ & Hp) & (_ & _ & He) & _).
  exact (conj Hr (conj eq_refl (conj eq_refl (conj Hp He)))).
Defined.

(** ** First in, first out *)

(** C5.  With both policy flags off and [n <= capacity] inserts in total,
    that is on a buffer that holds nothing when the pushes start (a new one,
    or one emptied again), pushing [e1..en] (in one call or one element per
    call) and then calling [shift()] [n] times returns [e1..en] in that
    order.
    Stated for capacities up to [max_capacity], where the index
    arithmetic of the source is exact. *)
Theorem push_then_shift_fifo {T} (b : CircularBuffer T) (es : list T) :
  reachable b -> getCapacity b <= max_capacity -> isEmpty b = true ->
  allowOverwrite b = false -> allowOverremove b = false ->
  Z.of_nat (length es) <= getCapacity b ->
  (exists b1 b2,
     push es b = (inr (Z.of_nat (length es)), b1) /\
     times (length es) shift b1 = (inr (map Some es), b2)) /\
  (exists b1 b2,
     for_of es (fun e => bind (push [e]) (fun _ => ret tt)) b = (inr tt, b1) /\
     times (length es) shift b1 = (inr (map Some es), b2)).
Proof.
  intros Hwf%reachable_wf _ He%Z.eqb_eq How Hor Hfit.
  unfold size, getCapacity in *.
  assert (contents b = []) as Hnil by (unfold contents; by rewrite He).
  destruct (push_fits b es Hwf) as (b1 & Hpush & Hwf1 & _ & Hcnt1 & Hcont1);
    [unfold freeSpace, getCapacity, size; lia|done|].
  rewrite He, Z.add_0_l in Hpush, Hcnt1. rewrite Hnil in Hcont1. simpl in Hcont1.
  destruct (shift_all (length es) b1 Hwf1 ltac:(lia)) as (b2 & Hrun & _).
  rewrite Hcont1 in Hrun.
  split; [by exists b1, b2|].
  exists b1, b2. split; [|done].
  rewrite push_each by (done || lia).
  rewrite push_eq in Hpush. unfold freeSpace, getCapacity, size in Hpush.
  destruct (Z.ltb_spec (capacity b - elementCount b) (Z.of_nat (length es)));
    [lia|].
  rewrite andb_false_r, truncate_strict in Hpush by done.
  cbv zeta in Hpush. congruence.
Qed.

Lemma push_then_shift_fifo_witness :
  let b := new (T:=Z) 3 false false in
  reachable b /\ getCapacity b <= max_capacity /\ isEmpty b = true /\
  allowOverwrite b = false /\ allowOverremove b = false /\
  Z.of_nat (length [7; 8; 9]) <= getCapacity b /\
  exists b1 b2,
    push [7; 8; 9] b = (inr 3, b1) /\
    times 3 shift b1 = (inr [Some 7; Some 8; Some 9], b2).
Proof.
  intros b.
  assert (reachable b) as Hr by (apply reachable_new; lia).
  assert (getCapacity b <= max_capacity) as Hcap by (vm_compute; discriminate).
  assert (Z.of_nat (length [7; 8; 9]) <= getCapacity b) as Hle
    by (vm_compute; discriminate).
  destruct (push_then_shift_fifo b [7; 8; 9] Hr Hcap eq_refl eq_refl eq_refl Hle)
    as [Hone _].
  exact (conj Hr (conj Hcap (conj eq_refl (conj eq_refl (conj eq_refl (conj Hle Hone)))))).
Defined.

(** C6.  With both policy flags off and [n <= capacity] inserts in total,
    that is on a buffer that holds nothing when the enqueues start,
    enqueueing [e1..en] (in one call or one element per call) and then
    calling [dequeue()] [n] times returns [e1..en] in that order.
    Stated for capacities up to [max_capacity], where the index
    arithmetic of the source is exact. *)
Theorem enqueue_then_dequeue_fifo {T} (b : CircularBuffer T) (es : list T) :
  reachable b -> getCapacity b <= max_capacity -> isEmpty b = true ->
  allowOverwrite b = false -> allowOverremove b = false ->
  Z.of_nat (length es) <= getCapacity b ->
  (exists b1 b2,
     enqueue es b = (inr (Z.of_nat (length es)), b1) /\
     times (length es) dequeue b1 = (inr (map Some es), b2)) /\
  (exists b1 b2,
     for_of es (fun e => bind (enqueue [e]) (fun _ => ret tt)) b = (inr tt, b1) /\
     times (length es) dequeue b1 = (inr (map Some es), b2)).
Proof.
  intros Hwf%reachable_wf _ He%Z.eqb_eq How Hor Hfit.
  unfold size, getCapacity in *.
  assert (contents b = []) as Hnil by (unfold contents; by rewrite He).
  destruct (enqueue_fits b es Hwf) as (b1 & Henq & Hwf1 & _ & Hcnt1 & Hcont1);
    [unfold freeSpace, getCapacity, size; lia|done|].
  rewrite He, Z.add_0_l in Henq, Hcnt1.
  rewrite Hnil, app_nil_r in Hcont1.
  destruct (dequeue_all (length es) b1 Hwf1 ltac:(lia)) as (b2 & Hrun & _).
  rewrite Hcont1, rev_involutive in Hrun.
  split; [by exists b1, b2|].
  exists b1, b2. split; [|done].
  rewrite enqueue_each by (done || lia).
  rewrite enqueue_eq in Henq. unfold freeSpace, getCapacity, size in Henq.
  destruct (Z.ltb_spec (capacity b - elementCount b) (Z.of_nat (length es)));
    [lia|].
  rewrite andb_false_r, truncate_strict in Henq by done.
  cbv zeta in Henq. congruence.
Qed.

Lemma enqueue_then_dequeue_fifo_witness :
  let b := new (T:=Z) 3 false false in
  reachable b /\ getCapacity b <= max_capacity /\ isEmpty b = true /\
  allowOverwrite b = false /\ allowOverremove b = false /\
  Z.of_nat (length [7; 8; 9]) <= getCapacity b /\
  exists b1 b2,
    enqueue [7; 8; 9] b = (inr 3, b1) /\
    times 3 dequeue b1 = (inr [Some 7; Some 8; Some 9], b2).
Proof.
  intros b.
  assert (reachable b) as Hr by (apply reachable_new; lia).
  assert (getCapacity b <= max_capacity) as Hcap by (vm_compute; discriminate).
  assert (Z.of_nat (length [7; 8; 9]) <= getCapacity b) as Hle
    by (vm_compute; discriminate).
  destruct (enqueue_then_dequeue_fifo b [7; 8; 9] Hr Hcap eq_refl eq_refl eq_refl Hle)
    as [Hone _].
  exact (conj Hr (conj Hcap (conj eq_refl (conj eq_refl (conj eq_refl (conj Hle Hone)))))).
Defined.

(** ** Materialisation *)

(** C1.  [toArray] evaluated on the buffer of capacity 4 after
    [push(1,2,3)] and one [shift()]: the buffer holds 2 and 3, in the slots 1
    and 2 (the occupied region does not wrap), and [toArray()] returns [[2]]
    only, because the non-wrapping branch slices up to [size()] instead of
    up to [firstIndex + size()]. *)
Theorem toArray_after_push_shift :
  let b := exec Shift (exec (Push [1; 2; 3]) (new (T:=Z) 4 false false)) in
  reachable b /\
  arePointersReversed b = false /\
  size b = 2 /\
  contents b = [Some 2; Some 3] /\
  JsArray.slice (buffer b) (firstIndex b) (firstIndex b + size b)
    = [Some 2; Some 3] /\
  toArray b = [Some 2].
Proof.
  intros b. split; [|by vm_compute].
  apply reachable_exec, reachable_exec, reachable_new. lia.
Qed.

(** The same slip after a single [enqueue] on a new buffer: the element sits
    in the last slot, and [toArray()] is empty. *)
Example toArray_after_enqueue :
  let b := exec (Enqueue [7]) (new (T:=Z) 4 false false) in
  size b = 1 /\ contents b = [Some 7] /\ toArray b = [].
Proof. by vm_compute. Qed.

(** An emptied buffer whose first index is not 0 counts as wrapped: its
    [toArray()] returns the cleared slots. *)
Example toArray_after_emptying :
  let b := exec Shift (exec (Push [7]) (new (T:=Z) 4 false false)) in
  size b = 0 /\ contents b = [] /\ toArray b = [None].
Proof. by vm_compute. Qed.

(** ** Option *)

(** C10.  On an [Option] in the none state, [setValueIfNone(v)] stores [v]
    and leaves the presence flag as it is: [isNone()] is still true,
    [isSome()] is false, and [getValue()] returns [v]. *)
Theorem setValueIfNone_keeps_flag {T} (o : Opt.Option T) (v : T) :
  Opt.isNone o = true ->
  Opt.isNone (Opt.setValueIfNone v o) = true /\
  Opt.isSome (Opt.setValueIfNone v o) = false /\
  Opt.getValue (Opt.setValueIfNone v o) = Some v /\
  Opt.hasInternalValue (Opt.setValueIfNone v o) = Opt.hasInternalValue o.
Proof.
  intros Hnone. unfold Opt.setValueIfNone. rewrite Hnone.
  unfold Opt.isNone, Opt.isSome, Opt.getValue in *. simpl.
  destruct (Opt.hasInternalValue o); [done|by repeat split].
Qed.

Lemma setValueIfNone_keeps_flag_witness :
  Opt.isNone (Opt.none (T:=Z)) = true /\
  Opt.isNone (Opt.setValueIfNone 5 Opt.none) = true /\
  Opt.isSome (Opt.setValueIfNone 5 Opt.none) = false /\
  Opt.getValue (Opt.setValueIfNone 5 Opt.none) = Some 5 /\
  Opt.hasInternalValue (Opt.setValueIfNone 5 Opt.none) = false.
Proof.
  split; [reflexivity|].
  exact (setValueIfNone_keeps_flag (Opt.none (T:=Z)) 5 eq_refl).
Defined.

(** * Further properties of the code *)

(** ** Windows of a list *)

Section Windows.
Context {A : Type}.
Implicit Types (l r : list A) (n : nat).

Lemma last_n_all n l : (length l <= n)%nat -> last_n n l = l.
Proof.
  intros H. unfold last_n.
  by replace (length l - n)%nat with 0%nat by lia.
Qed.

Lemma length_last_n n l : length (last_n n l) = Nat.min n (length l).
Proof. unfold last_n. rewrite length_drop. lia. Qed.

Lemma last_n_app_l n l r : last_n n (last_n n l ++ r) = last_n n (l ++ r).
Proof.
  destruct (Nat.le_gt_cases (length l) n) as [Hle|Hgt].
  - by rewrite (last_n_all n l).
  - unfold last_n at 1 3. rewrite !length_app, length_last_n.
    unfold last_n.
    rewrite <- (drop_app_le l r (length l - n)) by lia.
    rewrite drop_drop. f_equal. lia.
Qed.

Lemma last_n_app_r n l r : last_n n (l ++ last_n n r) = last_n n (l ++ r).
Proof.
  destruct (Nat.le_gt_cases (length r) n) as [Hle|Hgt].
  - by rewrite (last_n_all n r).
  - unfold last_n at 1 3. rewrite !length_app, length_last_n.
    rewrite !drop_app_ge by lia. unfold last_n.
    rewrite drop_drop. f_equal. lia.
Qed.

Lemma take_app_take_l n l r : take n (take n l ++ r) = take n (l ++ r).
Proof.
  rewrite !take_app, take_take, length_take, Nat.min_id.
  destruct (Nat.le_gt_cases (length l) n) as [Hle|Hgt].
  - by rewrite Nat.min_r by lia.
  - rewrite Nat.min_l by lia.
    replace (n - length l)%nat with 0%nat by lia.
    by replace (n - n)%nat with 0%nat by lia.
Qed.

Lemma take_app_take_r n l r : take n (l ++ take n r) = take n (l ++ r).
Proof.
  rewrite !take_app, take_take. do 2 f_equal. lia.
Qed.

Lemma rev_last_n n l : rev (last_n n l) = take n (rev l).
Proof. unfold last_n. symmetry. apply firstn_rev. Qed.

Lemma map_last_n {B} (f : A -> B) n l : map f (last_n n l) = last_n n (map f l).
Proof. unfold last_n. by rewrite length_map, skipn_map. Qed.

End Windows.

(** ** Insertion as a window over the logical sequence *)

Section BufferWindows.
Context {T : Type}.
Implicit Types (b : CircularBuffer T) (x : T) (es : list T).

Lemma contents_push_window b x :
  wf b ->
  contents (push_step x b) =
    last_n (Z.to_nat (capacity b)) (contents b ++ [Some x]).
Proof.
  intros (Hc & Hinv & _). pose proof Hinv as [Hn Hf].
  rewrite contents_push_step by done.
  destruct (isFull b) eqn:Hfull.
  - apply isFull_true in Hfull. unfold last_n.
    rewrite length_app, length_contents. simpl.
    replace (Z.to_nat (elementCount b) + 1 - Z.to_nat (capacity b))%nat
      with 1%nat by lia.
    rewrite drop_app_le; [done|]. rewrite length_contents. lia.
  - apply isFull_false in Hfull. rewrite last_n_all; [done|].
    rewrite length_app, length_contents. simpl. lia.
Qed.

Lemma contents_enqueue_window b x :
  wf b ->
  contents (enqueue_step x b) =
    take (Z.to_nat (capacity b)) (Some x :: contents b).
Proof.
  intros (Hc & Hinv & _). pose proof Hinv as [Hn Hf].
  rewrite contents_enqueue_step by done.
  destruct (isFull b) eqn:Hfull.
  - apply isFull_true in Hfull.
    replace (Z.to_nat (capacity b)) with (S (pred (length (contents b))))
      by (rewrite length_contents; lia).
    simpl. by rewrite removelast_firstn_len.
  - apply isFull_false in Hfull. rewrite take_ge; [done|].
    simpl. rewrite length_contents. lia.
Qed.

Lemma contents_push_steps_window b es :
  wf b ->
  contents (foldl (fun b x => push_step x b) b es) =
    last_n (Z.to_nat (capacity b)) (contents b ++ map Some es).
Proof.
  revert b. induction es as [|x xs IH]; intros b Hwf; simpl.
  - rewrite app_nil_r, last_n_all; [done|].
    rewrite length_contents. destruct Hwf as (_ & [Hn _] & _). lia.
  - destruct (push_step_wf b x Hwf) as [Hwf' (Hcap & _)].
    rewrite IH, Hcap, contents_push_window, last_n_app_l, <- app_assoc by done.
    done.
Qed.

Lemma contents_enqueue_steps_window b es :
  wf b ->
  contents (foldl (fun b x => enqueue_step x b) b es) =
    take (Z.to_nat (capacity b)) (rev (map Some es) ++ contents b).
Proof.
  revert b. induction es as [|x xs IH]; intros b Hwf; simpl.
  - rewrite take_ge; [done|].
    rewrite length_contents. destruct Hwf as (_ & [Hn _] & _). lia.
  - destruct (enqueue_step_wf b x Hwf) as [Hwf' (Hcap & _)].
    rewrite IH, Hcap, contents_enqueue_window, take_app_take_r, <- app_assoc
      by done.
    done.
Qed.

Lemma truncate_overwrite b es :
  0 < capacity b -> allowOverwrite b = true ->
  truncate b es = last_n (Z.to_nat (capacity b)) es.
Proof.
  intros Hc How. unfold truncate, getCapacity. rewrite How.
  unfold JsArray.slice_from, JsArray.slice, JsArray.clamp, last_n.
  destruct (Z.ltb_spec (- capacity b) 0) as [_|]; [|lia].
  destruct (Z.ltb_spec (Z.of_nat (length es)) 0) as [|_]; [lia|].
  rewrite Z.min_id.
  replace (Z.to_nat (Z.max (Z.of_nat (length es) + - capacity b) 0))
    with (length es - Z.to_nat (capacity b))%nat by lia.
  apply take_ge. rewrite length_drop. lia.
Qed.

(** What a [push] that goes through leaves behind. *)
Lemma push_goes_through b es :
  wf b ->
  allowOverwrite b = true \/ Z.of_nat (length es) <= freeSpace b ->
  push es b = (inr (size (snd (push es b))), snd (push es b)) /\
  wf (snd (push es b)) /\
  contents (snd (push es b)) =
    last_n (Z.to_nat (capacity b)) (contents b ++ map Some es).
Proof.
  intros Hwf Hok. pose proof Hwf as (Hc & _).
  split; [|split; [by apply push_wf|]].
  - rewrite push_eq.
    destruct (negb _ && _) eqn:Hthrow; [|done].
    apply andb_true_iff in Hthrow as [How%negb_true_iff Hlt%Z.ltb_lt].
    destruct Hok; [congruence|lia].
  - rewrite push_eq.
    destruct (negb _ && _) eqn:Hthrow.
    { apply andb_true_iff in Hthrow as [How%negb_true_iff Hlt%Z.ltb_lt].
      destruct Hok; [congruence|lia]. }
    cbn [snd]. rewrite contents_push_steps_window by done.
    destruct (allowOverwrite b) eqn:How.
    + by rewrite truncate_overwrite, map_last_n, last_n_app_r.
    + by rewrite truncate_strict.
Qed.

Lemma enqueue_goes_through b es :
  wf b ->
  allowOverwrite b = true \/ Z.of_nat (length es) <= freeSpace b ->
  enqueue es b = (inr (size (snd (enqueue es b))), snd (enqueue es b)) /\
  wf (snd (enqueue es b)) /\
  contents (snd (enqueue es b)) =
    take (Z.to_nat (capacity b)) (rev (map Some es) ++ contents b).
Proof.
  intros Hwf Hok. pose proof Hwf as (Hc & _).
  split; [|split; [by apply enqueue_wf|]].
  - rewrite enqueue_eq.
    destruct (negb _ && _) eqn:Hthrow; [|done].
    apply andb_true_iff in Hthrow as [How%negb_true_iff Hlt%Z.ltb_lt].
    destruct Hok; [congruence|lia].
  - rewrite enqueue_eq.
    destruct (negb _ && _) eqn:Hthrow.
    { apply andb_true_iff in Hthrow as [How%negb_true_iff Hlt%Z.ltb_lt].
      destruct Hok; [congruence|lia]. }
    cbn [snd]. rewrite contents_enqueue_steps_window by done.
    destruct (allowOverwrite b) eqn:How.
    + by rewrite truncate_overwrite, map_last_n, rev_last_n, take_app_take_l.
    + by rewrite truncate_strict.
Qed.

Lemma size_of_contents b : wf b -> size b = Z.of_nat (length (contents b)).
Proof.
  intros (_ & [Hn _] & _). unfold size. rewrite length_contents. lia.
Qed.

End BufferWindows.

(** ** More invariants of the reachable states *)

Section BufferInvariants.
Context {T : Type}.
Implicit Types (b : CircularBuffer T) (x : T) (es : list T).

Lemma foldl_keeps {A} (P : CircularBuffer T -> Prop)
    (f : A -> CircularBuffer T -> CircularBuffer T) xs b :
  (forall b y, P b -> P (f y b)) -> P b -> P (foldl (fun b y => f y b) b xs).
Proof.
  intros Hstep. revert b. induction xs as [|y xs IH]; intros b Hb; simpl; auto.
Qed.

(** *** Vacated slots are cleared *)

Lemma push_step_cleared b x :
  wf b /\ cleared b -> wf (push_step x b) /\ cleared (push_step x b).
Proof.
  intros [Hwf Hcl]. pose proof Hwf as (Hc & [Hn Hf] & _).
  destruct (push_step_wf b x Hwf) as [Hwf' _]. split; [done|].
  destruct (push_step_fields b x) as (Hcap & _ & _ & Hbuf & Hcnt & Hfst).
  unfold getEndIndex in Hbuf. intros k. rewrite Hcap, Hcnt.
  destruct (isFull b) eqn:Hfull.
  - apply isFull_true in Hfull. lia.
  - apply isFull_false in Hfull. intros Hk.
    rewrite (slot_after b _ (elementCount b) 0 (Some x));
      [|done..|by rewrite Hfst, Z.add_0_r, wrapIndex_small].
    rewrite decide_False by (apply wrapIndex_ne; lia).
    apply Hcl. lia.
Qed.

Lemma enqueue_step_cleared b x :
  wf b /\ cleared b -> wf (enqueue_step x b) /\ cleared (enqueue_step x b).
Proof.
  intros [Hwf Hcl]. pose proof Hwf as (Hc & [Hn Hf] & _).
  destruct (enqueue_step_wf b x Hwf) as [Hwf' _]. split; [done|].
  destruct (enqueue_step_fields b x) as (Hcap & _ & _ & Hbuf & Hcnt & Hfst).
  replace (firstIndex b - 1) with (firstIndex b + -1) in Hbuf, Hfst by lia.
  intros k. rewrite Hcap, Hcnt.
  destruct (isFull b) eqn:Hfull.
  - apply isFull_true in Hfull. lia.
  - apply isFull_false in Hfull. intros Hk.
    rewrite (slot_after b _ (-1) (-1) (Some x)) by done.
    rewrite decide_False by (apply wrapIndex_ne; lia).
    apply Hcl. lia.
Qed.

Lemma shift_cleared b :
  wf b /\ cleared b -> wf (snd (shift b)) /\ cleared (snd (shift b)).
Proof.
  intros [Hwf Hcl]. pose proof Hwf as (Hc & [Hn Hf] & _).
  destruct (shift_wf b Hwf) as [Hwf' _]. split; [done|].
  destruct (Z.eq_dec (elementCount b) 0) as [E|E].
  { rewrite shift_empty by done. by destruct (allowOverremove b). }
  rewrite shift_nonempty by lia. cbn [snd]. intros k. cbn [elementCount capacity].
  intros Hk.
  rewrite (slot_after b _ 0 1 None);
    [|done..|by cbn [buffer]; rewrite Z.add_0_r, wrapIndex_small|done].
  case_decide as Hd; [done|].
  apply Hcl. split; [lia|].
  destruct (Z.eq_dec k (capacity b - 1)) as [->|]; [|lia].
  exfalso. apply Hd.
  replace (firstIndex b + (1 + (capacity b - 1))) with (firstIndex b + capacity b)
    by lia.
  rewrite wrapIndex_add_cap by done. f_equal. lia.
Qed.

Lemma dequeue_cleared b :
  wf b /\ cleared b -> wf (snd (dequeue b)) /\ cleared (snd (dequeue b)).
Proof.
  intros [Hwf Hcl]. pose proof Hwf as (Hc & [Hn Hf] & _).
  destruct (dequeue_wf b Hwf) as [Hwf' _]. split; [done|].
  destruct (Z.eq_dec (elementCount b) 0) as [E|E].
  { rewrite dequeue_empty by done. by destruct (allowOverremove b). }
  rewrite dequeue_nonempty by lia. cbn [snd]. rewrite last_index by done.
  intros k. cbn [elementCount capacity]. intros Hk.
  rewrite (slot_after b _ (elementCount b - 1) 0 None);
    [|done..|by cbn [firstIndex]; rewrite Z.add_0_r, wrapIndex_small].
  case_decide as Hd; [done|].
  apply Hcl. split; [|lia].
  destruct (Z.eq_dec k (elementCount b - 1)) as [->|]; [|lia].
  exfalso. apply Hd. f_equal.
Qed.

Lemma exec_cleared o b :
  wf b /\ cleared b -> wf (exec o b) /\ cleared (exec o b).
Proof.
  intros H. destruct o; simpl; auto using shift_cleared, dequeue_cleared.
  - rewrite enqueue_eq. destruct (negb _ && _); [done|]. cbn [snd].
    apply (foldl_keeps (fun b => wf b /\ cleared b) (fun x b => enqueue_step x b));
      [|done].
    intros. by apply enqueue_step_cleared.
  - rewrite push_eq. destruct (negb _ && _); [done|]. cbn [snd].
    apply (foldl_keeps (fun b => wf b /\ cleared b) (fun x b => push_step x b));
      [|done].
    intros. by apply push_step_cleared.
Qed.

Lemma reachable_cleared b : reachable b -> wf b /\ cleared b.
Proof.
  induction 1 as [cap ow or Hc|o b _ IH].
  - split; [by apply new_wf|]. intros k _. unfold slot, JsArray.get. simpl.
    by destruct (_ <? 0).
  - by apply exec_cleared.
Qed.

End BufferInvariants.

(** ** What the logical sequence holds *)

Section BufferContents.
Context {T : Type}.
Implicit Types (b : CircularBuffer T) (x : T) (es : list T).

Lemma Forall_map_Some es : Forall is_Some (map (@Some T) es).
Proof. induction es; constructor; eauto. Qed.

Lemma all_Some (l : list (option T)) :
  Forall is_Some l -> exists l', l = map Some l'.
Proof.
  induction 1 as [|o l [v ->] _ [l' ->]]; [by exists []|by exists (v :: l')].
Qed.

(** An insertion either throws and changes nothing, or goes through. *)
Lemma push_cases b es :
  push es b = (inl CapacityExceeded, b) \/
  (allowOverwrite b = true \/ Z.of_nat (length es) <= freeSpace b).
Proof.
  rewrite push_eq. destruct (allowOverwrite b); simpl; [auto|].
  destruct (Z.ltb_spec (freeSpace b) (Z.of_nat (length es))); auto.
Qed.

Lemma enqueue_cases b es :
  enqueue es b = (inl CapacityExceeded, b) \/
  (allowOverwrite b = true \/ Z.of_nat (length es) <= freeSpace b).
Proof.
  rewrite enqueue_eq. destruct (allowOverwrite b); simpl; [auto|].
  destruct (Z.ltb_spec (freeSpace b) (Z.of_nat (length es))); auto.
Qed.

Lemma exec_defined o b :
  wf b -> Forall is_Some (contents b) -> Forall is_Some (contents (exec o b)).
Proof.
  intros Hwf Hdef. pose proof Hwf as (Hc & Hinv & _).
  destruct o as [es|es| | | | | | | | |]; simpl; try done.
  - destruct (enqueue_cases b es) as [->|Hok]; [done|].
    destruct (enqueue_goes_through b es Hwf Hok) as (_ & _ & ->).
    apply Forall_take, Forall_app. split; [|done].
    apply Forall_rev, Forall_map_Some.
  - destruct (push_cases b es) as [->|Hok]; [done|].
    destruct (push_goes_through b es Hwf Hok) as (_ & _ & ->).
    apply Forall_drop, Forall_app. split; [done|].
    apply Forall_map_Some.
  - destruct (Z.eq_dec (elementCount b) 0) as [E|E].
    { rewrite shift_empty by done. by destruct (allowOverremove b). }
    destruct (contents_shift b Hc Hinv) as [_ Hcont]; [destruct Hinv; lia|].
    rewrite Hcont in Hdef. by apply Forall_cons in Hdef as [_ ?].
  - destruct (Z.eq_dec (elementCount b) 0) as [E|E].
    { rewrite dequeue_empty by done. by destruct (allowOverremove b). }
    destruct (contents_dequeue b Hc Hinv) as [_ Hcont]; [destruct Hinv; lia|].
    rewrite Hcont in Hdef. by apply Forall_app in Hdef as [? _].
  - destruct (Z.eq_dec (elementCount b) 0) as [E|E].
    { unfold pop. rewrite dequeue_empty by done. by destruct (allowOverremove b). }
    destruct (contents_dequeue b Hc Hinv) as [_ Hcont]; [destruct Hinv; lia|].
    rewrite Hcont in Hdef. by apply Forall_app in Hdef as [? _].
Qed.

Lemma reachable_defined b : reachable b -> Forall is_Some (contents b).
Proof.
  induction 1 as [cap ow or Hc|o b Hr IH].
  - constructor.
  - apply exec_defined; [by apply reachable_wf|done].
Qed.

(** *** A buffer that is only pushed to *)

Lemma push_step_front b x :
  wf b /\ front_at_zero b ->
  wf (push_step x b) /\ front_at_zero (push_step x b).
Proof.
  intros [Hwf Hfront]. pose proof Hwf as (Hc & [Hn Hf] & _).
  destruct (push_step_wf b x Hwf) as [Hwf' _]. split; [done|].
  destruct (push_step_fields b x) as (Hcap & _ & _ & _ & Hcnt & Hfst).
  unfold front_at_zero.
  destruct (isFull b) eqn:Hfull.
  - right. apply isFull_true. apply isFull_true in Hfull. lia.
  - left. destruct Hfront as [?|?]; congruence.
Qed.

Lemma push_front es b :
  wf b /\ front_at_zero b ->
  wf (snd (push es b)) /\ front_at_zero (snd (push es b)).
Proof.
  intros H. rewrite push_eq. destruct (negb _ && _); [done|]. cbn [snd].
  apply (foldl_keeps (fun b => wf b /\ front_at_zero b) (fun x b => push_step x b));
    [|done].
  intros. by apply push_step_front.
Qed.

Lemma toArray_front b : wf b -> front_at_zero b -> toArray b = contents b.
Proof.
  intros Hwf Hfront. pose proof Hwf as (Hc & [Hn Hf] & _).
  apply toArray_contents; [done|].
  destruct Hfront as [?|Hfull%isFull_true]; [by left|].
  destruct (Z.eq_dec (firstIndex b) 0); [by left|right; lia].
Qed.

Lemma pushes_window (calls : list (list T)) b :
  wf b -> front_at_zero b -> allowOverwrite b = true ->
  let b' := foldl (fun b es => snd (push es b)) b calls in
  wf b' /\ front_at_zero b' /\
  contents b' =
    last_n (Z.to_nat (capacity b)) (contents b ++ map Some (concat calls)).
Proof.
  revert b. induction calls as [|es calls IH]; intros b Hwf Hfront How; simpl.
  - split; [done|]. split; [done|].
    rewrite app_nil_r, last_n_all; [done|].
    rewrite length_contents. destruct Hwf as (_ & [Hn _] & _). lia.
  - destruct (push_front es b (conj Hwf Hfront)) as [Hwf1 Hfront1].
    destruct (push_wf es b Hwf) as [_ (Hcap & How1 & _)].
    destruct (push_goes_through b es Hwf (or_introl How)) as (_ & _ & Hcont).
    destruct (IH (snd (push es b)) Hwf1 Hfront1 ltac:(congruence))
      as (Hwf' & Hfront' & Hcont').
    split; [done|]. split; [done|].
    by rewrite Hcont', Hcap, Hcont, last_n_app_l, map_app, app_assoc.
Qed.

End BufferContents.

(** ** Insertion *)

(** X1.  A [push] that does not throw (overwriting allowed, or the elements
    fit) leaves the last [capacity] elements of the old logical sequence
    followed by the new elements, and returns the new size, which is the
    old size plus the number of elements, capped at the capacity.
    Stated for capacities up to [max_capacity], where the index
    arithmetic of the source is exact. *)
Theorem push_keeps_last {T} (b : CircularBuffer T) (es : list T) :
  reachable b -> getCapacity b <= max_capacity ->
  allowOverwrite b = true \/ Z.of_nat (length es) <= freeSpace b ->
  exists b',
    push es b = (inr (Z.min (getCapacity b) (size b + Z.of_nat (length es))), b') /\
    size b' = Z.min (getCapacity b) (size b + Z.of_nat (length es)) /\
    contents b' = last_n (Z.to_nat (getCapacity b)) (contents b ++ map Some es).
Proof.
  intros Hwf%reachable_wf _ Hok.
  destruct (push_goes_through b es Hwf Hok) as (Hpush & Hwf' & Hcont).
  assert (size (snd (push es b))
          = Z.min (getCapacity b) (size b + Z.of_nat (length es))) as Hsize.
  { rewrite (size_of_contents _ Hwf'), (size_of_contents b Hwf), Hcont.
    rewrite length_last_n, length_app, length_map. unfold getCapacity.
    destruct Hwf as (Hc & _). lia. }
  exists (snd (push es b)). rewrite <- Hsize. done.
Qed.

Lemma push_keeps_last_witness :
  let b := exec (Push [1; 2]) (new (T:=Z) 3 true false) in
  reachable b /\ getCapacity b <= max_capacity /\
  (allowOverwrite b = true \/ Z.of_nat (length [3; 4; 5; 6]) <= freeSpace b) /\
  exists b',
    push [3; 4; 5; 6] b = (inr 3, b') /\
    size b' = 3 /\
    contents b' = [Some 4; Some 5; Some 6].
Proof.
  intros b.
  assert (reachable b) as Hr by (apply reachable_exec, reachable_new; lia).
  assert (getCapacity b <= max_capacity) as Hcap by (vm_compute; discriminate).
  exact (conj Hr (conj Hcap
           (conj (or_introl eq_refl) (push_keeps_last b [3; 4; 5; 6] Hr Hcap (or_introl eq_refl))))).
Defined.

(** X2.  An [enqueue] that does not throw puts the new elements in front, the
    last one given first, and keeps the first [capacity] elements of the
    result; it returns the new size.
    Stated for capacities up to [max_capacity], where the index
    arithmetic of the source is exact. *)
Theorem enqueue_keeps_first {T} (b : CircularBuffer T) (es : list T) :
  reachable b -> getCapacity b <= max_capacity ->
  allowOverwrite b = true \/ Z.of_nat (length es) <= freeSpace b ->
  exists b',
    enqueue es b = (inr (Z.min (getCapacity b) (size b + Z.of_nat (length es))), b') /\
    size b' = Z.min (getCapacity b) (size b + Z.of_nat (length es)) /\
    contents b' =
      take (Z.to_nat (getCapacity b)) (rev (map Some es) ++ contents b).
Proof.
  intros Hwf%reachable_wf _ Hok.
  destruct (enqueue_goes_through b es Hwf Hok) as (Henq & Hwf' & Hcont).
  assert (size (snd (enqueue es b))
          = Z.min (getCapacity b) (size b + Z.of_nat (length es))) as Hsize.
  { rewrite (size_of_contents _ Hwf'), (size_of_contents b Hwf), Hcont.
    rewrite length_take, length_app, length_rev, length_map. unfold getCapacity.
    destruct Hwf as (Hc & _). lia. }
  exists (snd (enqueue es b)). rewrite <- Hsize. done.
Qed.

Lemma enqueue_keeps_first_witness :
  let b := exec (Push [1; 2]) (new (T:=Z) 3 true false) in
  reachable b /\ getCapacity b <= max_capacity /\
  (allowOverwrite b = true \/ Z.of_nat (length [3; 4]) <= freeSpace b) /\
  exists b',
    enqueue [3; 4] b = (inr 3, b') /\
    size b' = 3 /\
    contents b' = [Some 4; Some 3; Some 1].
Proof.
  intros b.
  assert (reachable b) as Hr by (apply reachable_exec, reachable_new; lia).
  assert (getCapacity b <= max_capacity) as Hcap by (vm_compute; discriminate).
  exact (conj Hr (conj Hcap (conj (or_introl eq_refl)
           (enqueue_keeps_first b [3; 4] Hr Hcap (or_introl eq_refl))))).
Defined.

(** ** Removal *)

Lemma shift_front_value {T} (b : CircularBuffer T) :
  reachable b -> isEmpty b = false ->
  exists v b',
    shift b = (inr (Some v), b') /\
    contents b = Some v :: contents b' /\
    size b' = size b - 1.
Proof.
  intros Hr Hne. pose proof (reachable_wf b Hr) as Hwf.
  pose proof Hwf as (Hc & Hinv & _).
  apply Z.eqb_neq in Hne. unfold size in Hne.
  assert (0 < elementCount b) as Hpos by (destruct Hinv; lia).
  destruct (contents_shift b Hc Hinv Hpos) as [Hres Hcont].
  pose proof (reachable_defined b Hr) as Hdef.
  rewrite Hcont in Hdef. apply Forall_cons in Hdef as [[v Hv] _].
  exists v, (snd (shift b)). rewrite <- Hv, <- Hcont.
  split; [by rewrite <- Hres, <- surjective_pairing|].
  split; [by rewrite Hcont at 1|].
  by rewrite shift_nonempty.
Qed.

Lemma dequeue_back_value {T} (b : CircularBuffer T) :
  reachable b -> isEmpty b = false ->
  exists v b',
    dequeue b = (inr (Some v), b') /\
    pop b = (inr (Some v), b') /\
    contents b = contents b' ++ [Some v] /\
    size b' = size b - 1.
Proof.
  intros Hr Hne. pose proof (reachable_wf b Hr) as Hwf.
  pose proof Hwf as (Hc & Hinv & _).
  apply Z.eqb_neq in Hne. unfold size in Hne.
  assert (0 < elementCount b) as Hpos by (destruct Hinv; lia).
  destruct (contents_dequeue b Hc Hinv Hpos) as [Hres Hcont].
  pose proof (reachable_defined b Hr) as Hdef.
  rewrite Hcont in Hdef. apply Forall_app in Hdef as [_ Hlast].
  apply Forall_cons in Hlast as [[v Hv] _].
  assert (dequeue b = (inr (Some v), snd (dequeue b))) as Hd
    by (by rewrite <- Hv, <- Hres, <- surjective_pairing).
  exists v, (snd (dequeue b)). rewrite <- Hv.
  split; [by rewrite Hv|]. split; [by rewrite Hv|].
  split; [done|]. by rewrite dequeue_nonempty.
Qed.

(** X3.  On a buffer that holds something, [shift] returns the front element
    of the logical sequence, which is a value and not [undefined], whatever
    [allowOverremove] is; the rest of the sequence stays, and the size goes
    down by one.
    Stated for capacities up to [max_capacity] and for an element
    type that does not admit [undefined]. *)
Theorem shift_takes_front {T} (b : CircularBuffer T) :
  reachable b -> getCapacity b <= max_capacity -> isEmpty b = false ->
  exists v b',
    shift b = (inr (Some v), b') /\
    contents b = Some v :: contents b' /\
    size b' = size b - 1.
Proof. intros Hr _. by apply shift_front_value. Qed.

Lemma shift_takes_front_witness :
  let b := exec (Push [1; 2; 3]) (new (T:=Z) 3 false true) in
  reachable b /\ getCapacity b <= max_capacity /\ isEmpty b = false /\
  exists v b',
    shift b = (inr (Some v), b') /\
    contents b = Some v :: contents b' /\
    size b' = size b - 1.
Proof.
  intros b.
  assert (reachable b) as Hr by (apply reachable_exec, reachable_new; lia).
  assert (getCapacity b <= max_capacity) as Hcap by (vm_compute; discriminate).
  exact (conj Hr (conj Hcap (conj eq_refl (shift_takes_front b Hr Hcap eq_refl)))).
Defined.

(** X4.  On a buffer that holds something, [dequeue] (and [pop]) returns the
    back element of the logical sequence, which is a value; the rest of the
    sequence stays, and the size goes down by one.
    Stated for capacities up to [max_capacity] and for an element
    type that does not admit [undefined]. *)
Theorem dequeue_takes_back {T} (b : CircularBuffer T) :
  reachable b -> getCapacity b <= max_capacity -> isEmpty b = false ->
  exists v b',
    dequeue b = (inr (Some v), b') /\
    pop b = (inr (Some v), b') /\
    contents b = contents b' ++ [Some v] /\
    size b' = size b - 1.
Proof. intros Hr _. by apply dequeue_back_value. Qed.

Lemma dequeue_takes_back_witness :
  let b := exec (Push [1; 2; 3]) (new (T:=Z) 3 false true) in
  reachable b /\ getCapacity b <= max_capacity /\ isEmpty b = false /\
  exists v b',
    dequeue b = (inr (Some v), b') /\
    pop b = (inr (Some v), b') /\
    contents b = contents b' ++ [Some v] /\
    size b' = size b - 1.
Proof.
  intros b.
  assert (reachable b) as Hr by (apply reachable_exec, reachable_new; lia).
  assert (getCapacity b <= max_capacity) as Hcap by (vm_compute; discriminate).
  exact (conj Hr (conj Hcap (conj eq_refl (dequeue_takes_back b Hr Hcap eq_refl)))).
Defined.

Ltac settle_outcomes :=
  repeat match goal with
         | |- _ /\ _ => split
         | |- _ <-> _ => split
         | |- _ -> _ => intro
         | H : _ /\ _ |- _ => destruct H
         | H : exists _, _ |- _ => destruct H
         end;
  try discriminate; try done; eauto.

(** X5.  [shift] and [dequeue] throw exactly on an empty buffer with
    [allowOverremove] off, and return [undefined] exactly on an empty buffer
    with [allowOverremove] on: an [undefined] result always means that the
    buffer was empty.
    Stated for capacities up to [max_capacity] and for an element
    type that does not admit [undefined]. *)
Theorem removal_outcomes {T} (b : CircularBuffer T) :
  reachable b -> getCapacity b <= max_capacity ->
  ((exists e, fst (shift b) = inl e)
     <-> isEmpty b = true /\ allowOverremove b = false) /\
  (fst (shift b) = inr None
     <-> isEmpty b = true /\ allowOverremove b = true) /\
  ((exists e, fst (dequeue b) = inl e)
     <-> isEmpty b = true /\ allowOverremove b = false) /\
  (fst (dequeue b) = inr None
     <-> isEmpty b = true /\ allowOverremove b = true).
Proof.
  intros Hr _. destruct (isEmpty b) eqn:He.
  - pose proof He as E%Z.eqb_eq. unfold size in E.
    rewrite shift_empty, dequeue_empty by done.
    destruct (allowOverremove b); simpl; settle_outcomes.
  - destruct (shift_front_value b Hr He) as (v & b1 & -> & _).
    destruct (dequeue_back_value b Hr He) as (w & b2 & -> & _).
    simpl. settle_outcomes.
Qed.

Lemma removal_outcomes_witness :
  let b := new (T:=Z) 2 false false in
  reachable b /\ getCapacity b <= max_capacity /\
  exists e, fst (shift b) = inl e.
Proof.
  intros b.
  assert (reachable b) as Hr by (apply reachable_new; lia).
  assert (getCapacity b <= max_capacity) as Hcap by (vm_compute; discriminate).
  destruct (removal_outcomes b Hr Hcap) as ([_ Hthrow] & _).
  exact (conj Hr (conj Hcap (Hthrow (conj eq_refl eq_refl)))).
Defined.

(** X6.  Calling [shift()] [size()] times returns the whole logical sequence
    front to back and leaves the buffer empty; calling [dequeue()] [size()]
    times returns it back to front.
    Stated for capacities up to [max_capacity], where the index
    arithmetic of the source is exact. *)
Theorem removal_drains {T} (b : CircularBuffer T) :
  reachable b -> getCapacity b <= max_capacity ->
  (exists b', times (Z.to_nat (size b)) shift b = (inr (contents b), b') /\
              isEmpty b' = true) /\
  (exists b', times (Z.to_nat (size b)) dequeue b = (inr (rev (contents b)), b') /\
              isEmpty b' = true).
Proof.
  intros Hwf%reachable_wf _.
  destruct (shift_all _ b Hwf eq_refl) as (b1 & Hs & _ & _ & Hz1).
  destruct (dequeue_all _ b Hwf eq_refl) as (b2 & Hd & _ & _ & Hz2).
  split; [exists b1|exists b2]; (split; [done|]);
    unfold isEmpty, size; by apply Z.eqb_eq.
Qed.

Lemma removal_drains_witness :
  let b := exec (Enqueue [0]) (exec (Push [1; 2]) (new (T:=Z) 3 false false)) in
  reachable b /\ getCapacity b <= max_capacity /\
  (exists b', times 3 shift b = (inr [Some 0; Some 1; Some 2], b') /\
              isEmpty b' = true) /\
  (exists b', times 3 dequeue b = (inr [Some 2; Some 1; Some 0], b') /\
              isEmpty b' = true).
Proof.
  intros b.
  assert (reachable b) as Hr
    by (apply reachable_exec, reachable_exec, reachable_new; lia).
  assert (getCapacity b <= max_capacity) as Hcap by (vm_compute; discriminate).
  exact (conj Hr (conj Hcap (removal_drains b Hr Hcap))).
Defined.

(** ** Last in, first out at either end *)

(** X7.  After a [push] of one element that does not throw, [pop] returns
    that element; what is left is the old logical sequence, less its front
    element if the buffer was full.
    Stated for capacities up to [max_capacity], where the index
    arithmetic of the source is exact. *)
Theorem push_then_pop {T} (b : CircularBuffer T) (x : T) :
  reachable b -> getCapacity b <= max_capacity ->
  allowOverwrite b = true \/ isFull b = false ->
  exists b1 b2,
    push [x] b = (inr (size b1), b1) /\
    pop b1 = (inr (Some x), b2) /\
    contents b2 = if isFull b then drop 1 (contents b) else contents b.
Proof.
  intros Hwf%reachable_wf _ Hok. pose proof Hwf as (Hc & Hinv & _).
  assert (allowOverwrite b = true \/ Z.of_nat (length [x]) <= freeSpace b) as Hok'.
  { destruct Hok as [?|Hnf%isFull_false]; [by left|right].
    unfold freeSpace, getCapacity, size. simpl. lia. }
  destruct (push_goes_through b [x] Hwf Hok') as (Hpush & Hwf1 & _).
  assert (snd (push [x] b) = push_step x b) as Hb1.
  { rewrite push_eq. destruct (negb _ && _) eqn:Hthrow.
    - apply andb_true_iff in Hthrow as [How%negb_true_iff Hlt%Z.ltb_lt].
      destruct Hok'; [congruence|lia].
    - by rewrite truncate_single. }
  rewrite Hb1 in Hpush, Hwf1.
  pose proof (contents_push_step b x Hc Hinv) as Hcont.
  pose proof Hwf1 as (Hc1 & Hinv1 & _).
  assert (0 < elementCount (push_step x b)) as Hpos.
  { destruct (push_step_fields b x) as (_ & _ & _ & _ & Hcnt & _).
    destruct Hinv as [Hn _]. rewrite Hcnt.
    destruct (isFull b) eqn:Hfull; [apply isFull_true in Hfull|]; lia. }
  destruct (contents_dequeue _ Hc1 Hinv1 Hpos) as [Hres Hsplit].
  rewrite Hsplit in Hcont.
  exists (push_step x b), (snd (dequeue (push_step x b))).
  split; [done|]. unfold pop.
  destruct (isFull b); apply app_inj_tail in Hcont as [Hrest Hlast];
    (split; [|done]); by rewrite <- Hlast, <- Hres, <- surjective_pairing.
Qed.

Lemma push_then_pop_witness :
  let b := exec (Push [1; 2]) (new (T:=Z) 3 false false) in
  reachable b /\ getCapacity b <= max_capacity /\
  (allowOverwrite b = true \/ isFull b = false) /\
  exists b1 b2,
    push [9] b = (inr (size b1), b1) /\
    pop b1 = (inr (Some 9), b2) /\
    contents b2 = [Some 1; Some 2].
Proof.
  intros b.
  assert (reachable b) as Hr by (apply reachable_exec, reachable_new; lia).
  assert (getCapacity b <= max_capacity) as Hcap by (vm_compute; discriminate).
  exact (conj Hr (conj Hcap (conj (or_intror eq_refl)
           (push_then_pop b 9 Hr Hcap (or_intror eq_refl))))).
Defined.

(** X8.  After an [enqueue] of one element that does not throw, [shift]
    returns that element; what is left is the old logical sequence, less
    its back element if the buffer was full.
    Stated for capacities up to [max_capacity], where the index
    arithmetic of the source is exact. *)
Theorem enqueue_then_shift {T} (b : CircularBuffer T) (x : T) :
  reachable b -> getCapacity b <= max_capacity ->
  allowOverwrite b = true \/ isFull b = false ->
  exists b1 b2,
    enqueue [x] b = (inr (size b1), b1) /\
    shift b1 = (inr (Some x), b2) /\
    contents b2 = if isFull b then removelast (contents b) else contents b.
Proof.
  intros Hwf%reachable_wf _ Hok. pose proof Hwf as (Hc & Hinv & _).
  assert (allowOverwrite b = true \/ Z.of_nat (length [x]) <= freeSpace b) as Hok'.
  { destruct Hok as [?|Hnf%isFull_false]; [by left|right].
    unfold freeSpace, getCapacity, size. simpl. lia. }
  destruct (enqueue_goes_through b [x] Hwf Hok') as (Henq & Hwf1 & _).
  assert (snd (enqueue [x] b) = enqueue_step x b) as Hb1.
  { rewrite enqueue_eq. destruct (negb _ && _) eqn:Hthrow.
    - apply andb_true_iff in Hthrow as [How%negb_true_iff Hlt%Z.ltb_lt].
      destruct Hok'; [congruence|lia].
    - by rewrite truncate_single. }
  rewrite Hb1 in Henq, Hwf1.
  pose proof (contents_enqueue_step b x Hc Hinv) as Hcont.
  pose proof Hwf1 as (Hc1 & Hinv1 & _).
  assert (0 < elementCount (enqueue_step x b)) as Hpos.
  { destruct (enqueue_step_fields b x) as (_ & _ & _ & _ & Hcnt & _).
    destruct Hinv as [Hn _]. rewrite Hcnt.
    destruct (isFull b) eqn:Hfull; [apply isFull_true in Hfull|]; lia. }
  destruct (contents_shift _ Hc1 Hinv1 Hpos) as [Hres Hsplit].
  rewrite Hsplit in Hcont.
  exists (enqueue_step x b), (snd (shift (enqueue_step x b))).
  split; [done|].
  destruct (isFull b); injection Hcont as Hfirst Hrest;
    (split; [|done]); by rewrite <- Hfirst, <- Hres, <- surjective_pairing.
Qed.

Lemma enqueue_then_shift_witness :
  let b := exec (Push [1; 2; 3]) (new (T:=Z) 3 true false) in
  reachable b /\ getCapacity b <= max_capacity /\
  (allowOverwrite b = true \/ isFull b = false) /\
  exists b1 b2,
    enqueue [9] b = (inr (size b1), b1) /\
    shift b1 = (inr (Some 9), b2) /\
    contents b2 = [Some 1; Some 2].
Proof.
  intros b.
  assert (reachable b) as Hr by (apply reachable_exec, reachable_new; lia).
  assert (getCapacity b <= max_capacity) as Hcap by (vm_compute; discriminate).
  exact (conj Hr (conj Hcap (conj (or_introl eq_refl)
           (enqueue_then_shift b 9 Hr Hcap (or_introl eq_refl))))).
Defined.

(** ** Where [toArray] is right *)

(** X9.  On a buffer whose first index is 0, and on a buffer whose occupied
    region wraps around the end of the storage, [toArray()] is the logical
    sequence and has [size()] elements.
    Stated for capacities up to [max_capacity], where the index
    arithmetic of the source is exact. *)
Theorem toArray_right_when {T} (b : CircularBuffer T) :
  reachable b -> getCapacity b <= max_capacity ->
  firstIndex b = 0 \/ getCapacity b < firstIndex b + size b ->
  toArray b = contents b /\ Z.of_nat (length (toArray b)) = size b.
Proof.
  intros Hwf%reachable_wf _ Hcase.
  rewrite (toArray_contents b Hwf Hcase).
  split; [done|]. symmetry. by apply size_of_contents.
Qed.

Lemma toArray_right_when_witness :
  let b := exec (Push [4; 5]) (exec (Push [1; 2; 3]) (new (T:=Z) 3 true false)) in
  reachable b /\ getCapacity b <= max_capacity /\
  (firstIndex b = 0 \/ getCapacity b < firstIndex b + size b) /\
  toArray b = [Some 3; Some 4; Some 5] /\
  Z.of_nat (length (toArray b)) = 3.
Proof.
  intros b.
  assert (reachable b) as Hr
    by (apply reachable_exec, reachable_exec, reachable_new; lia).
  assert (getCapacity b <= max_capacity) as Hcap by (vm_compute; discriminate).
  assert (getCapacity b < firstIndex b + size b) as Hw
    by (vm_compute; reflexivity).
  exact (conj Hr (conj Hcap (conj (or_intror Hw)
           (toArray_right_when b Hr Hcap (or_intror Hw))))).
Defined.

(** X10.  A buffer that is only ever pushed to keeps its first index at 0
    until it is full, so its [toArray()] is the logical sequence; with
    [allowOverwrite] on it is a sliding window: [toArray()] returns the last
    [capacity] elements pushed, over all the calls.
    Stated for capacities up to [max_capacity], where the index
    arithmetic of the source is exact. *)
Theorem push_only_toArray {T} (cap : Z) (ow or : bool) (calls : list (list T)) :
  0 < cap -> cap <= max_capacity ->
  let b := foldl (fun b es => snd (push es b)) (new cap ow or) calls in
  toArray b = contents b /\
  (ow = true ->
   toArray b = last_n (Z.to_nat cap) (map Some (concat calls))).
Proof.
  intros Hc _ b.
  assert (wf (new (T:=T) cap ow or)) as Hwf0 by (by apply new_wf).
  assert (front_at_zero (new (T:=T) cap ow or)) as Hf0 by (by left).
  assert (wf b /\ front_at_zero b) as [Hwf Hfront].
  { apply (foldl_keeps (fun b => wf b /\ front_at_zero b)
             (fun es b => snd (push es b))); [|done].
    intros. by apply push_front. }
  rewrite (toArray_front b Hwf Hfront). split; [done|].
  intros How. subst ow b.
  destruct (pushes_window calls (new cap true or) Hwf0 Hf0 eq_refl)
    as (_ & _ & Hwin).
  by rewrite Hwin.
Qed.

Lemma push_only_toArray_witness :
  0 < 3 /\ 3 <= max_capacity /\
  toArray (foldl (fun b es => snd (push es b)) (new (T:=Z) 3 true false)
             [[1; 2]; [3; 4; 5; 6]; [7]])
    = [Some 5; Some 6; Some 7].
Proof.
  assert (0 < 3) as Hc by lia.
  assert (3 <= max_capacity) as Hmax by (vm_compute; discriminate).
  destruct (push_only_toArray 3 true false [[1; 2]; [3; 4; 5; 6]; [7]] Hc Hmax)
    as [_ Hwin].
  exact (conj Hc (conj Hmax (Hwin eq_refl))).
Defined.

(** ** What no call does *)

(** X11.  The storage array never grows past the capacity, and no method
    changes the capacity or the two policy flags. *)
Theorem storage_bounded_config_fixed {T} (b : CircularBuffer T) (o : op T) :
  reachable b ->
  Z.of_nat (length (buffer b)) <= getCapacity b /\
  getCapacity (exec o b) = getCapacity b /\
  allowOverwrite (exec o b) = allowOverwrite b /\
  allowOverremove (exec o b) = allowOverremove b.
Proof.
  intros Hwf%reachable_wf.
  destruct (exec_wf o b Hwf) as [_ Hcfg].
  destruct Hwf as (_ & _ & [Hlen _]). done.
Qed.

Lemma storage_bounded_config_fixed_witness :
  let b := exec (Enqueue [9]) (new (T:=Z) 4 true true) in
  reachable b /\
  Z.of_nat (length (buffer b)) <= 4 /\
  getCapacity (exec (Push [1; 2; 3; 4; 5]) b) = 4 /\
  allowOverwrite (exec (Push [1; 2; 3; 4; 5]) b) = true /\
  allowOverremove (exec (Push [1; 2; 3; 4; 5]) b) = true.
Proof.
  intros b.
  assert (reachable b) as Hr by (apply reachable_exec, reachable_new; lia).
  exact (conj Hr (storage_bounded_config_fixed b (Push [1; 2; 3; 4; 5]) Hr)).
Defined.

(** X12.  The logical sequence of a buffer holds inserted values only, never
    [undefined], and as many of them as [size()] says.
    Stated for capacities up to [max_capacity] and for an element
    type that does not admit [undefined]. *)
Theorem contents_hold_values {T} (b : CircularBuffer T) :
  reachable b -> getCapacity b <= max_capacity ->
  exists l : list T, contents b = map Some l /\ Z.of_nat (length l) = size b.
Proof.
  intros Hr _.
  destruct (all_Some _ (reachable_defined b Hr)) as [l Hl].
  exists l. split; [done|].
  rewrite (size_of_contents b (reachable_wf b Hr)), Hl. by rewrite length_map.
Qed.

Lemma contents_hold_values_witness :
  let b := exec Shift (exec (Enqueue [0]) (exec (Push [1; 2]) (new (T:=Z) 3 false false))) in
  reachable b /\ getCapacity b <= max_capacity /\
  exists l : list Z, contents b = map Some l /\ Z.of_nat (length l) = size b.
Proof.
  intros b.
  assert (reachable b) as Hr
    by (apply reachable_exec, reachable_exec, reachable_exec, reachable_new; lia).
  assert (getCapacity b <= max_capacity) as Hcap by (vm_compute; discriminate).
  exact (conj Hr (conj Hcap (contents_hold_values b Hr Hcap))).
Defined.

(** X13.  Every storage slot outside the occupied region reads [undefined]:
    a removal clears the slot it vacates, and no stale element stays behind
    in the storage.
    Stated for capacities up to [max_capacity], where the index
    arithmetic of the source is exact. *)
Theorem vacated_slots_cleared {T} (b : CircularBuffer T) (k : Z) :
  reachable b -> getCapacity b <= max_capacity ->
  size b <= k < getCapacity b ->
  JsArray.get (buffer b) (wrapIndex b (firstIndex b + k)) = None.
Proof.
  intros [_ Hcl]%reachable_cleared _ Hk. by apply Hcl.
Qed.

Lemma vacated_slots_cleared_witness :
  let b := exec Dequeue (exec Shift (exec (Push [1; 2; 3]) (new (T:=Z) 3 false false))) in
  reachable b /\ getCapacity b <= max_capacity /\
  size b <= 2 < getCapacity b /\
  JsArray.get (buffer b) (wrapIndex b (firstIndex b + 2)) = None.
Proof.
  intros b.
  assert (reachable b) as Hr
    by (apply reachable_exec, reachable_exec, reachable_exec, reachable_new; lia).
  assert (getCapacity b <= max_capacity) as Hcap by (vm_compute; discriminate).
  assert (size b <= 2 < getCapacity b) as Hk
    by (vm_compute; split; [discriminate|reflexivity]).
  exact (conj Hr (conj Hcap (conj Hk (vacated_slots_cleared b 2 Hr Hcap Hk)))).
Defined.

(** ** Full and empty *)

(** X14.  For a buffer constructed with a positive capacity, [isFull()] says
    that no space is free, [isEmpty()] that all of it is, the free space
    is between 0 and the capacity, and a full buffer is not empty. *)
Theorem full_and_empty {T} (b : CircularBuffer T) :
  reachable b ->
  (isFull b = true <-> freeSpace b = 0) /\
  (isEmpty b = true <-> freeSpace b = getCapacity b) /\
  0 <= freeSpace b <= getCapacity b /\
  (isFull b = true -> isEmpty b = false).
Proof.
  intros (Hc & [Hn Hf] & _)%reachable_wf.
  rewrite isFull_true. unfold isEmpty, freeSpace, getCapacity, size.
  rewrite Z.eqb_eq, Z.eqb_neq. lia.
Qed.

Lemma full_and_empty_witness :
  let b := exec (Push [1; 2]) (new (T:=Z) 2 false false) in
  reachable b /\ isFull b = true /\ freeSpace b = 0 /\ isEmpty b = false.
Proof.
  intros b.
  assert (reachable b) as Hr by (apply reachable_exec, reachable_new; lia).
  destruct (full_and_empty b Hr) as ([Hfree _] & _ & _ & Hne).
  exact (conj Hr (conj eq_refl (conj (Hfree eq_refl) (Hne eq_refl)))).
Defined.

(** ** The Option class *)

(** X15.  [setValueIfNone] shows through [getValue] only: whether the Option
    has a value, what [getValueOrDefault], [getValueOrCalculatedDefault],
    [expect], [contains], [map] and [filter] give, and what [and], [or] and
    [xor] build from it (on either side) are all as before the call.  On a
    none Option the default is still what [getValueOrDefault] returns. *)
Theorem setValueIfNone_only_getValue {T} (o : Opt.Option T) (v : T) :
  let o' := Opt.setValueIfNone v o in
  Opt.isSome o' = Opt.isSome o /\
  (forall d, Opt.getValueOrDefault d o' = Opt.getValueOrDefault d o) /\
  (forall f, Opt.getValueOrCalculatedDefault f o' = Opt.getValueOrCalculatedDefault f o) /\
  (forall msg, Opt.expect msg o' = Opt.expect msg o) /\
  (forall eq w, Opt.contains eq w o' = Opt.contains eq w o) /\
  (forall U (f : T -> U), Opt.map f o' = Opt.map f o) /\
  (forall p, Opt.filter p o' = Opt.filter p o) /\
  (forall o2, Opt.and o' o2 = Opt.and o o2 /\ Opt.and o2 o' = Opt.and o2 o) /\
  (forall o2, Opt.or o' o2 = Opt.or o o2 /\ Opt.or o2 o' = Opt.or o2 o) /\
  (forall o2, Opt.xor o' o2 = Opt.xor o o2 /\ Opt.xor o2 o' = Opt.xor o2 o).
Proof.
  destruct o as [[] val]; cbv zeta; unfold Opt.setValueIfNone; simpl.
  - repeat split.
  - repeat split;
      try (intros o2; split); try (destruct o2 as [[] ?]); reflexivity.
Qed.

(** X16.  An Option that has a value holds a [T]: the two constructors give
    such Options, and every setter and combinator keeps them so. *)
Theorem typed_kept {T U} (o1 o2 : Opt.Option T) (v : T) (f : T -> U) (p : T -> bool) :
  Opt.typed o1 -> Opt.typed o2 ->
  Opt.typed (Opt.some v) /\ Opt.typed (Opt.none (T:=T)) /\
  Opt.typed (Opt.setValue v o1) /\ Opt.typed (Opt.setValueIfNone v o1) /\
  Opt.typed (Opt.setNone o1) /\
  Opt.typed (Opt.map f o1) /\ Opt.typed (Opt.filter p o1) /\
  Opt.typed (Opt.and o1 o2) /\ Opt.typed (Opt.or o1 o2) /\
  Opt.typed (Opt.xor o1 o2).
Proof.
  unfold Opt.typed.
  destruct o1 as [[] [x1|]], o2 as [[] [x2|]]; simpl; intros H1 H2;
    try (by destruct H1); try (by destruct H2);
    unfold Opt.filter; simpl; try destruct (p x1);
    repeat split; simpl; intros; by eauto.
Qed.

Lemma typed_kept_witness :
  Opt.typed (Opt.some 1) /\ Opt.typed (Opt.none (T:=Z)) /\
  Opt.typed (Opt.map Z.succ (Opt.some 1)) /\
  Opt.typed (Opt.xor (Opt.some 1) (Opt.none (T:=Z))).
Proof.
  assert (Opt.typed (Opt.some 1)) as H1 by (intros _; by exists 1).
  assert (Opt.typed (Opt.none (T:=Z))) as H2 by (intros H; discriminate H).
  destruct (typed_kept (Opt.some 1) Opt.none 0 Z.succ (Z.eqb 0) H1 H2)
    as (_ & _ & _ & _ & _ & Hmap & _ & _ & _ & Hxor).
  exact (conj H1 (conj H2 (conj Hmap Hxor))).
Defined.

(** X17.  On an Option that has a value, every reader returns that value:
    [expect] does not throw, the defaults are not used, and [contains] is
    the strict equality with the stored value. *)
Theorem present_reads {T} (o : Opt.Option T) :
  Opt.typed o -> Opt.isSome o = true ->
  exists x,
    Opt.getValue o = Some x /\
    (forall msg, Opt.expect msg o = inr (Some x)) /\
    (forall d, Opt.getValueOrDefault d o = Some x) /\
    (forall f, Opt.getValueOrCalculatedDefault f o = Some x) /\
    (forall eq w, Opt.contains eq w o = eq x w) /\
    Opt.or o o = Opt.some x /\ Opt.and o o = Opt.some x.
Proof.
  unfold Opt.typed, Opt.isSome. intros Ht Hs.
  destruct (Ht Hs) as [x Hx]. exists x.
  destruct o as [flag val]. simpl in *. subst.
  repeat split.
Qed.

Lemma present_reads_witness :
  Opt.typed (Opt.setValue 7 (Opt.none (T:=Z))) /\
  Opt.isSome (Opt.setValue 7 (Opt.none (T:=Z))) = true /\
  exists x,
    Opt.getValue (Opt.setValue 7 (Opt.none (T:=Z))) = Some x /\
    (forall msg, Opt.expect msg (Opt.setValue 7 Opt.none) = inr (Some x)) /\
    (forall d, Opt.getValueOrDefault d (Opt.setValue 7 Opt.none) = Some x) /\
    (forall f, Opt.getValueOrCalculatedDefault f (Opt.setValue 7 Opt.none) = Some x) /\
    (forall eq w, Opt.contains eq w (Opt.setValue 7 Opt.none) = eq x w) /\
    Opt.or (Opt.setValue 7 Opt.none) (Opt.setValue 7 Opt.none) = Opt.some x /\
    Opt.and (Opt.setValue 7 Opt.none) (Opt.setValue 7 Opt.none) = Opt.some x.
Proof.
  assert (Opt.typed (Opt.setValue 7 (Opt.none (T:=Z)))) as Ht
    by (intros _; by exists 7).
  exact (conj Ht (conj eq_refl (present_reads _ Ht eq_refl))).
Defined.

(** X18.  On an Option without a value, whatever its value field holds,
    [expect] throws an [Error] with the given message, the default (given or
    calculated) is returned, [contains] is false, and [map], [filter] and
    [and] give none. *)
Theorem absent_reads {T} (o : Opt.Option T) :
  Opt.isNone o = true ->
  (forall msg, Opt.expect msg o = inl (Opt.Error msg)) /\
  (forall d, Opt.getValueOrDefault d o = Some d) /\
  (forall f, Opt.getValueOrCalculatedDefault f o = Some (f tt)) /\
  (forall eq w, Opt.contains eq w o = false) /\
  (forall U (f : T -> U), Opt.map f o = Opt.none) /\
  (forall p, Opt.filter p o = Opt.none) /\
  (forall o2, Opt.and o o2 = Opt.none /\ Opt.and o2 o = Opt.none) /\
  (forall o2, Opt.or o o2 = Opt.or Opt.none o2 /\ Opt.xor o o2 = Opt.or Opt.none o2).
Proof.
  unfold Opt.isNone. destruct o as [[] val]; simpl; [discriminate|]. intros _.
  repeat split; try (by destruct o2 as [[] ?]).
Qed.

Lemma absent_reads_witness :
  Opt.isNone (Opt.setValueIfNone 3 (Opt.none (T:=Z))) = true /\
  Opt.getValue (Opt.setValueIfNone 3 (Opt.none (T:=Z))) = Some 3 /\
  Opt.getValueOrDefault 0 (Opt.setValueIfNone 3 (Opt.none (T:=Z))) = Some 0.
Proof.
  destruct (absent_reads (Opt.setValueIfNone 3 (Opt.none (T:=Z))) eq_refl)
    as (_ & Hdefault & _).
  exact (conj eq_refl (conj eq_refl (Hdefault 0))).
Defined.

(** X19.  [and] has a value when both Options have one, [or] when one of
    them has, [xor] when exactly one has; and a none that these three,
    [map] or [filter] return never carries a value. *)
Theorem combinators_presence {T U} (a b : Opt.Option T) (f : T -> U) (p : T -> bool) :
  Opt.isSome (Opt.and a b) = Opt.isSome a && Opt.isSome b /\
  Opt.isSome (Opt.or a b) = Opt.isSome a || Opt.isSome b /\
  Opt.isSome (Opt.xor a b) = xorb (Opt.isSome a) (Opt.isSome b) /\
  (Opt.isNone (Opt.and a b) = true -> Opt.getValue (Opt.and a b) = None) /\
  (Opt.isNone (Opt.or a b) = true -> Opt.getValue (Opt.or a b) = None) /\
  (Opt.isNone (Opt.xor a b) = true -> Opt.getValue (Opt.xor a b) = None) /\
  (Opt.isNone (Opt.map f a) = true -> Opt.getValue (Opt.map f a) = None) /\
  (Opt.isNone (Opt.filter p a) = true -> Opt.getValue (Opt.filter p a) = None).
Proof.
  destruct a as [[] [x|]], b as [[] [y|]]; unfold Opt.filter; simpl;
    try destruct (p x); repeat split; simpl; intros; done.
Qed.

(** X20.  [or] and [and] are associative: chains of them can be grouped
    either way, and give the first (for [or]) or the last (for [and]) value
    involved. *)
Theorem or_and_associative {T} (a b c : Opt.Option T) :
  Opt.or (Opt.or a b) c = Opt.or a (Opt.or b c) /\
  Opt.and (Opt.and a b) c = Opt.and a (Opt.and b c).
Proof.
  by destruct a as [[] ?], b as [[] ?], c as [[] ?].
Qed.

(** X21.  [map] and [filter] compose: mapping twice is mapping the composed
    callback, filtering twice is filtering by both predicates, filtering a
    mapped Option is mapping the Option filtered by the composed predicate;
    [map] keeps presence, and [filter] only ever takes the value away. *)
Theorem map_filter_laws {T U V} (o : Opt.Option T)
    (f : T -> U) (g : U -> V) (p q : T -> bool) (r : U -> bool) :
  Opt.typed o ->
  Opt.map g (Opt.map f o) = Opt.map (fun x => g (f x)) o /\
  Opt.filter q (Opt.filter p o) = Opt.filter (fun x => p x && q x) o /\
  Opt.filter r (Opt.map f o) = Opt.map f (Opt.filter (fun x => r (f x)) o) /\
  Opt.isSome (Opt.map f o) = Opt.isSome o /\
  (Opt.isSome (Opt.filter p o) = true ->
   Opt.isSome o = true /\ Opt.getValue (Opt.filter p o) = Opt.getValue o).
Proof.
  intros _.
  destruct o as [[] [x|]]; unfold Opt.filter, Opt.map; simpl;
    try (destruct (p x) eqn:Hp, (q x) eqn:Hq, (r (f x)) eqn:Hr);
    simpl; rewrite ?Hp, ?Hq, ?Hr; simpl;
    repeat split; simpl; intros; done.
Qed.

Lemma map_filter_laws_witness :
  Opt.typed (Opt.some 4) /\
  Opt.map Z.succ (Opt.map Z.succ (Opt.some 4)) = Opt.some 6 /\
  Opt.filter Z.even (Opt.map Z.succ (Opt.some 4)) = Opt.none.
Proof.
  assert (Opt.typed (Opt.some 4)) as Ht by (intros _; by exists 4).
  destruct (map_filter_laws (Opt.some 4) Z.succ Z.succ Z.even Z.even Z.even Ht)
    as (Hmm & _ & Hfm & _).
  exact (conj Ht (conj Hmm Hfm)).
Defined.

(** ** Index bookkeeping *)

Lemma wrapIndex_above {T} (b : CircularBuffer T) (i : Z) :
  capacity b <= i < 2 * capacity b -> wrapIndex b i = i - capacity b.
Proof.
  intros Hi.
  rewrite <- (wrapIndex_small b (i - capacity b)) by lia.
  rewrite <- (wrapIndex_add_cap b (i - capacity b)) by lia.
  f_equal. lia.
Qed.

Lemma wrapIndex_below {T} (b : CircularBuffer T) (i : Z) :
  - capacity b <= i < 0 -> wrapIndex b i = i + capacity b.
Proof.
  intros Hi.
  rewrite <- (wrapIndex_small b (i + capacity b)) by lia.
  by rewrite wrapIndex_add_cap by lia.
Qed.

(** X22.  With a positive capacity, [wrapIndex] leaves an index of
    [[0, capacity)] as it is, is idempotent, has period [capacity], and can
    be applied before or after adding an offset.
    Stated for capacities up to [2 ^ 52], where the sum inside
    [wrapIndex] is exact in the doubles of the source. *)
Theorem wrapIndex_laws {T} (b : CircularBuffer T) (i d : Z) :
  0 < capacity b -> capacity b <= 2 ^ 52 ->
  (0 <= i < capacity b -> wrapIndex b i = i) /\
  wrapIndex b (wrapIndex b i) = wrapIndex b i /\
  wrapIndex b (i + capacity b) = wrapIndex b i /\
  wrapIndex b (i - capacity b) = wrapIndex b i /\
  wrapIndex b (wrapIndex b i + d) = wrapIndex b (i + d).
Proof.
  intros Hc _. split; [apply wrapIndex_small|].
  split; [apply wrapIndex_small; by apply wrapIndex_range|].
  split; [by apply wrapIndex_add_cap|].
  split; [|by apply wrapIndex_wrap_add].
  rewrite <- (wrapIndex_add_cap b (i - capacity b)) by done. f_equal. lia.
Qed.

Lemma wrapIndex_laws_witness :
  0 < capacity (new (T:=Z) 4 false false) /\
  capacity (new (T:=Z) 4 false false) <= 2 ^ 52 /\
  wrapIndex (new (T:=Z) 4 false false) (wrapIndex (new (T:=Z) 4 false false) (-7) + 2)
    = wrapIndex (new (T:=Z) 4 false false) (-7 + 2).
Proof.
  assert (0 < capacity (new (T:=Z) 4 false false)) as Hc by (simpl; lia).
  assert (capacity (new (T:=Z) 4 false false) <= 2 ^ 52) as Hmax
    by (vm_compute; discriminate).
  destruct (wrapIndex_laws (new (T:=Z) 4 false false) (-7) 2 Hc Hmax)
    as (_ & _ & _ & _ & Hadd).
  exact (conj Hc (conj Hmax Hadd)).
Defined.

(** X23.  The end index is [firstIndex + size()], less the capacity when
    that reaches it.  [arePointersReversed] is true when the occupied region
    wraps around the end of the storage, and also on an empty buffer whose
    first index is not 0.
    Stated for capacities up to [max_capacity], where the index
    arithmetic of the source is exact. *)
Theorem end_index_and_reversal {T} (b : CircularBuffer T) :
  reachable b -> getCapacity b <= max_capacity ->
  getEndIndex b =
    (if firstIndex b + size b <? getCapacity b then firstIndex b + size b
     else firstIndex b + size b - getCapacity b) /\
  (arePointersReversed b = true <->
     getCapacity b < firstIndex b + size b \/ (size b = 0 /\ 0 < firstIndex b)).
Proof.
  intros (Hc & [Hn Hf] & _)%reachable_wf _.
  unfold arePointersReversed, size, getCapacity.
  rewrite last_index by done. unfold getEndIndex.
  split.
  - destruct (Z.ltb_spec (firstIndex b + elementCount b) (capacity b)).
    + apply wrapIndex_small. lia.
    + apply wrapIndex_above. lia.
  - rewrite Z.ltb_lt.
    destruct (Z.eq_dec (elementCount b) 0) as [E|E].
    + rewrite E. destruct (Z.eq_dec (firstIndex b) 0) as [F|F].
      * rewrite F, wrapIndex_below by lia. lia.
      * rewrite wrapIndex_small by lia. lia.
    + destruct (Z.le_gt_cases (firstIndex b + elementCount b) (capacity b)).
      * rewrite wrapIndex_small by lia. lia.
      * rewrite wrapIndex_above by lia. lia.
Qed.

Lemma end_index_and_reversal_witness :
  let b := exec Shift (exec (Push [7]) (new (T:=Z) 4 false false)) in
  reachable b /\ getCapacity b <= max_capacity /\
  size b = 0 /\ arePointersReversed b = true.
Proof.
  intros b.
  assert (reachable b) as Hr
    by (apply reachable_exec, reachable_exec, reachable_new; lia).
  assert (getCapacity b <= max_capacity) as Hcap by (vm_compute; discriminate).
  destruct (end_index_and_reversal b Hr Hcap) as [_ [_ Hrev]].
  refine (conj Hr (conj Hcap (conj eq_refl (Hrev (or_intror (conj eq_refl _)))))).
  vm_compute. reflexivity.
Defined.

(** X24.  On a buffer that holds something in a region that does not wrap,
    [toArray()] returns the first [size() - firstIndex] elements of the
    logical sequence (none when [firstIndex >= size()]): it is complete
    only when the first index is 0.
    Stated for capacities up to [max_capacity], where the index
    arithmetic of the source is exact. *)
Theorem toArray_straight_prefix {T} (b : CircularBuffer T) :
  reachable b -> getCapacity b <= max_capacity ->
  0 < size b -> firstIndex b + size b <= getCapacity b ->
  toArray b = take (Z.to_nat (size b - firstIndex b)) (contents b) /\
  Z.of_nat (length (toArray b)) = Z.max 0 (size b - firstIndex b).
Proof.
  intros Hr _ Hpos Hfit. pose proof (reachable_wf b Hr) as Hwf.
  pose proof Hwf as (Hc & [Hn Hf] & _).
  unfold size, getCapacity in *.
  assert (toArray b = take (Z.to_nat (elementCount b - firstIndex b)) (contents b))
    as Hto.
  { unfold toArray, arePointersReversed, size.
    rewrite last_index, wrapIndex_small by lia.
    destruct (Z.ltb_spec (firstIndex b + (elementCount b - 1)) (firstIndex b));
      [lia|].
    rewrite contents_straight, JsArrayFacts.slice_nonneg, take_take by (done || lia).
    f_equal. lia. }
  split; [done|].
  rewrite Hto, length_take, length_contents. lia.
Qed.

Lemma toArray_straight_prefix_witness :
  let b := exec Shift (exec (Push [1; 2; 3]) (new (T:=Z) 4 false false)) in
  reachable b /\ getCapacity b <= max_capacity /\
  0 < size b /\ firstIndex b + size b <= getCapacity b /\
  toArray b = take 1 (contents b).
Proof.
  intros b.
  assert (reachable b) as Hr
    by (apply reachable_exec, reachable_exec, reachable_new; lia).
  assert (getCapacity b <= max_capacity) as Hcap by (vm_compute; discriminate).
  assert (0 < size b) as Hpos by (vm_compute; reflexivity).
  assert (firstIndex b + size b <= getCapacity b) as Hfit
    by (vm_compute; discriminate).
  destruct (toArray_straight_prefix b Hr Hcap Hpos Hfit) as [Hto _].
  exact (conj Hr (conj Hcap (conj Hpos (conj Hfit Hto)))).
Defined.
